(* ===================================================================== *)
(* webgl-play: the builtin GLSL catalogue (types, functions, operators), *)
(* the location extraction for JavaScript runtime errors, and the        *)
(* document store, embedded from the JavaScript sources.                 *)
(*                                                                       *)
(* The file has three parts: the program (the catalogue module, the two  *)
(* error methods of the application, the store over IndexedDB, the       *)
(* syntax-tree dumper, the relative dates and the delayed save), the     *)
(* definitions used to state its properties, and the properties.         *)
(* ===================================================================== *)

From Stdlib Require Import ZArith QArith Qround Ascii String.
From stdpp Require Import gmap strings list fin_maps sorting pretty.

Open Scope string_scope.
Open Scope list_scope.

(* ===================================================================== *)
(* The builtin catalogue                                                 *)
(* ===================================================================== *)

(* --------------------------------------------------------------------- *)
(* Tokens                                                                *)
(* --------------------------------------------------------------------- *)

(** The token identifiers [Tn.T_*] that the catalogue mentions.  The
    tokenizer numbers them; only their identity matters here. *)
Inductive token : Set :=
  | T_VOID | T_FLOAT | T_INT | T_BOOL
  | T_VEC2 | T_VEC3 | T_VEC4
  | T_BVEC2 | T_BVEC3 | T_BVEC4
  | T_IVEC2 | T_IVEC3 | T_IVEC4
  | T_MAT2 | T_MAT3 | T_MAT4
  | T_SAMPLER2D | T_SAMPLERCUBE
  | T_PLUS | T_DASH | T_STAR | T_SLASH
  | T_LEFT_ANGLE_OP | T_RIGHT_ANGLE | T_LE_OP | T_GE_OP
  | T_EQ_OP | T_NE_OP
  | T_AND_OP | T_OR_OP | T_XOR_OP
  | T_DEC_OP | T_INC_OP | T_BANG
  | T_IDENTIFIER | T_SEMICOLON | T_LEFT_PAREN | T_RIGHT_PAREN.

#[global] Instance token_eq_dec : EqDecision token.
Proof. solve_decision. Defined.

(** [dtn.create_token(id, text, bloc)]; the location is always the
    builtin range and is left out. *)
Record Token : Set := create_token { tok_id : token; tok_text : string }.

#[global] Instance Token_eq_dec : EqDecision Token.
Proof. solve_decision. Defined.

(* --------------------------------------------------------------------- *)
(* builtins.Type                                                         *)
(* --------------------------------------------------------------------- *)

Module Type_.

Definition _is_vec (tok : token) : bool :=
  match tok with
  | T_VEC2 | T_VEC3 | T_VEC4
  | T_BVEC2 | T_BVEC3 | T_BVEC4
  | T_IVEC2 | T_IVEC3 | T_IVEC4 => true
  | _ => false
  end.

Definition _is_mat (tok : token) : bool :=
  match tok with
  | T_MAT2 | T_MAT3 | T_MAT4 => true
  | _ => false
  end.

Definition _is_scalar (tok : token) : bool :=
  match tok with
  | T_FLOAT | T_INT | T_BOOL => true
  | _ => false
  end.

Definition _is_int (tok : token) : bool :=
  match tok with
  | T_INT | T_IVEC2 | T_IVEC3 | T_IVEC4 => true
  | _ => false
  end.

Definition _is_bool (tok : token) : bool :=
  match tok with
  | T_BOOL | T_BVEC2 | T_BVEC3 | T_BVEC4 => true
  | _ => false
  end.

Definition _is_float (tok : token) : bool :=
  match tok with
  | T_FLOAT | T_VEC2 | T_VEC3 | T_VEC4 | T_MAT2 | T_MAT3 | T_MAT4 => true
  | _ => false
  end.

Definition _length (tok : token) : nat :=
  match tok with
  | T_FLOAT | T_INT | T_BOOL => 1
  | T_VEC2 | T_IVEC2 | T_BVEC2 | T_MAT2 => 2
  | T_VEC3 | T_IVEC3 | T_BVEC3 | T_MAT3 => 3
  | T_VEC4 | T_IVEC4 | T_BVEC4 | T_MAT4 => 4
  | _ => 0
  end.

(** The [switch] has no default: any other token yields [undefined],
    here [None]. *)
Definition _name (tok : token) : option string :=
  match tok with
  | T_VOID => Some "void"
  | T_FLOAT => Some "float"
  | T_INT => Some "int"
  | T_BOOL => Some "bool"
  | T_VEC2 => Some "vec2"
  | T_VEC3 => Some "vec3"
  | T_VEC4 => Some "vec4"
  | T_BVEC2 => Some "bvec2"
  | T_BVEC3 => Some "bvec3"
  | T_BVEC4 => Some "bvec4"
  | T_IVEC2 => Some "ivec2"
  | T_IVEC3 => Some "ivec3"
  | T_IVEC4 => Some "ivec4"
  | T_MAT2 => Some "mat2"
  | T_MAT3 => Some "mat3"
  | T_MAT4 => Some "mat4"
  | T_SAMPLER2D => Some "sampler2D"
  | T_SAMPLERCUBE => Some "samplerCube"
  | _ => None
  end.

(** The object built by [new Type(id)] (the fields the constructor
    sets itself; those of the AST node it extends play no part here). *)
Record t : Set := mk {
  id : token;
  name : option string;
  incomplete : bool;
  is_scalar : bool;
  is_vec : bool;
  is_mat : bool;
  is_int : bool;
  is_float : bool;
  is_bool : bool;
  length : nat;
  is_builtin : bool
}.

Definition new (id : token) : t :=
  {| id := id;
     name := _name id;
     incomplete := false;
     is_scalar := _is_scalar id;
     is_vec := _is_vec id;
     is_mat := _is_mat id;
     is_int := _is_int id;
     is_float := _is_float id;
     is_bool := _is_bool id;
     length := _length id;
     is_builtin := true |}.

#[global] Instance eq_dec : EqDecision t.
Proof. solve_decision. Defined.

End Type_.

(** A JavaScript string concatenation prints a missing name as
    [undefined]. *)
Definition js_string (o : option string) : string :=
  match o with
  | Some s => s
  | None => "undefined"
  end.

(* --------------------------------------------------------------------- *)
(* Type declarations and the type table                                  *)
(* --------------------------------------------------------------------- *)

(** [glsl.ast.Type]: the type reference node, with its token and the
    builtin type attached to it. *)
Record AstType : Set := mkAstType {
  at_token : Token;
  at_incomplete : bool;
  at_type : Type_.t
}.

(** [glsl.ast.TypeDecl]. *)
Record TypeDecl : Set := mkTypeDecl {
  td_type : AstType;
  td_semi : Token;
  td_incomplete : bool
}.

#[global] Instance AstType_eq_dec : EqDecision AstType.
Proof. solve_decision. Defined.

#[global] Instance TypeDecl_eq_dec : EqDecision TypeDecl.
Proof. solve_decision. Defined.

Definition btypetoks : list token :=
  [ T_VOID;
    T_FLOAT; T_INT; T_BOOL;
    T_VEC2; T_VEC3; T_VEC4;
    T_BVEC2; T_BVEC3; T_BVEC4;
    T_IVEC2; T_IVEC3; T_IVEC4;
    T_MAT2; T_MAT3; T_MAT4;
    T_SAMPLER2D; T_SAMPLERCUBE ].

(** The body of the loop of [Type._create_builtin] for one token: the
    declaration pushed onto [Types] and stored in [TypeMap].  (The loop
    also exports it under its capitalised name.) *)
Definition builtin_decl (tok : token) : TypeDecl :=
  let name := js_string (Type_._name tok) in
  {| td_type := {| at_token := create_token tok name;
                   at_incomplete := false;
                   at_type := Type_.new tok |};
     td_semi := create_token T_SEMICOLON ";";
     td_incomplete := false |}.

(** [exports.Types] and [exports.TypeMap] (an object keyed by token),
    as the loop fills them: a later key would replace an earlier one. *)
Fixpoint assoc_set {A : Type} (k : token) (v : A) (m : list (token * A))
  : list (token * A) :=
  match m with
  | [] => [(k, v)]
  | (k', v') :: m' =>
      if decide (k = k') then (k, v) :: m' else (k', v') :: assoc_set k v m'
  end.

Fixpoint assoc_get {A : Type} (k : token) (m : list (token * A)) : option A :=
  match m with
  | [] => None
  | (k', v) :: m' => if decide (k = k') then Some v else assoc_get k m'
  end.

Definition _create_builtin : list TypeDecl * list (token * TypeDecl) :=
  fold_left
    (fun '(types, typemap) tok =>
       let decl := builtin_decl tok in
       (types ++ [decl], assoc_set tok decl typemap))
    btypetoks ([], []).

Definition Types : list TypeDecl := fst _create_builtin.
Definition TypeMap : list (token * TypeDecl) := snd _create_builtin.

(** [exports.TypeMap[tok]]: [None] stands for [undefined]. *)
Definition TypeMap_get (tok : token) : option TypeDecl := assoc_get tok TypeMap.

(* --------------------------------------------------------------------- *)
(* JavaScript values that occur as type slots                            *)
(* --------------------------------------------------------------------- *)

(** What the registration helpers receive in a return-type or
    parameter-type position: [null] (the generic marker), a token number,
    a string (the family markers ['bvec'], ['vec'], ['ivec']), a
    [TypeDecl] object, or [undefined] (a failed table read). *)
Inductive jsval : Set :=
  | Null
  | Undefined
  | Tok (t : token)
  | Str (s : string)
  | Decl (d : TypeDecl).

(** The parameter arrays alternate a type slot and a parameter name
    ([[null, 'x', Tn.T_FLOAT, 'y']]) and every loop over them steps by
    two; they are kept here as a list of (slot, name) pairs. *)
Definition params := list (jsval * string).

(** [exports.TypeMap[v]] for an arbitrary value: the keys of the table
    are token numbers, so only a token can hit (the strings in use are the
    family markers, never numerals). *)
Definition TypeMap_at (v : jsval) : jsval :=
  match v with
  | Tok t => match TypeMap_get t with Some d => Decl d | None => Undefined end
  | _ => Undefined
  end.

(** [glsl.ast.TypeDecl.prototype.isPrototypeOf(v)]. *)
Definition is_TypeDecl (v : jsval) : bool :=
  match v with Decl _ => true | _ => false end.

(** Reading a property of a value that has to be a [TypeDecl]; on
    [undefined] JavaScript throws a TypeError, here [None]. *)
Definition as_decl (v : jsval) : option TypeDecl :=
  match v with Decl d => Some d | _ => None end.

(* --------------------------------------------------------------------- *)
(* Function prototypes and operators                                     *)
(* --------------------------------------------------------------------- *)

(** [glsl.ast.ParamDecl]. *)
Record ParamDecl : Set := mkParamDecl {
  pd_type : AstType;
  pd_name : Token
}.

(** [glsl.ast.FunctionHeader].  [fh_type] is the declaration stored in
    [header.type.type]; the wrapping [glsl.ast.Type] node only adds a
    builtin token to it. *)
Record FunctionHeader : Set := mkFunctionHeader {
  fh_type : TypeDecl;
  fh_name : Token;
  fh_left_paren : Token;
  fh_right_paren : Token;
  fh_incomplete : bool;
  fh_parameters : list ParamDecl
}.

(** [glsl.ast.FunctionProto]. *)
Record FunctionProto : Set := mkFunctionProto {
  fp_header : FunctionHeader;
  fp_semi : Token;
  fp_incomplete : bool
}.

#[global] Instance ParamDecl_eq_dec : EqDecision ParamDecl.
Proof. solve_decision. Defined.
#[global] Instance FunctionHeader_eq_dec : EqDecision FunctionHeader.
Proof. solve_decision. Defined.
#[global] Instance FunctionProto_eq_dec : EqDecision FunctionProto.
Proof. solve_decision. Defined.

(** The name of a parameter's type, as the signature prints it. *)
Definition param_type_name (p : ParamDecl) : string :=
  tok_text (at_token (pd_type p)).

(** Modelled from the spec: [FunctionHeader.prototype.signature] lives in
    the AST module, which is not among the sources.  The spec gives the
    key as the function name followed by the comma-joined parameter type
    names in parentheses, e.g. [sin(float)]. *)
Definition signature (h : FunctionHeader) : string :=
  tok_text (fh_name h) +:+ "(" +:+
  String.concat "," (map param_type_name (fh_parameters h)) +:+ ")".

(** Modelled from the spec: [Tokenizer.prototype.token_name] lives in the
    tokenizer, which is not among the sources.  The spec writes operator
    keys with the operator's spelling, e.g. [*(mat3,vec3)]. *)
Definition token_name (op : token) : string :=
  match op with
  | T_PLUS => "+" | T_DASH => "-" | T_STAR => "*" | T_SLASH => "/"
  | T_LEFT_ANGLE_OP => "<" | T_RIGHT_ANGLE => ">"
  | T_LE_OP => "<=" | T_GE_OP => ">="
  | T_EQ_OP => "==" | T_NE_OP => "!="
  | T_AND_OP => "&&" | T_OR_OP => "||" | T_XOR_OP => "^^"
  | T_DEC_OP => "--" | T_INC_OP => "++" | T_BANG => "!"
  | T_SEMICOLON => ";" | T_LEFT_PAREN => "(" | T_RIGHT_PAREN => ")"
  | T_IDENTIFIER => "identifier"
  | t => js_string (Type_._name t)
  end.

(** The object built by [new Operator(op)] once the generator has set
    its fields: [ret] always, [lhs] and [rhs] for a binary operator,
    [expr] for a unary one. *)
Record Operator : Set := mkOperator {
  op : token;
  ret : Type_.t;
  lhs : option Type_.t;
  rhs : option Type_.t;
  expr : option Type_.t
}.

#[global] Instance Operator_eq_dec : EqDecision Operator.
Proof. solve_decision. Defined.

(** The four mutable tables of the module. *)
Record catalogue : Type := mkCatalogue {
  Functions : list FunctionProto;
  FunctionMap : gmap string FunctionProto;
  Operators : list Operator;
  OperatorMap : gmap string Operator
}.

Definition empty_catalogue : catalogue :=
  {| Functions := []; FunctionMap := ∅; Operators := []; OperatorMap := ∅ |}.

(** A [for] loop over an array whose body may throw. *)
Fixpoint for_each {A S : Type} (body : A → S → option S) (l : list A) (s : S)
  : option S :=
  match l with
  | [] => Some s
  | x :: l' => s' ← body x s; for_each body l' s'
  end.

(* --------------------------------------------------------------------- *)
(* Registration of builtin functions                                     *)
(* --------------------------------------------------------------------- *)

(** The second loop of [define_builtin_function]: one [ParamDecl] per
    (type, name) pair, reading [p.type] of the resolved declaration. *)
Definition make_param (sp : jsval * string) : option ParamDecl :=
  p ← as_decl sp.1;
  Some {| pd_type := td_type p; pd_name := create_token T_IDENTIFIER sp.2 |}.

(** The first loop: a slot that is not a [TypeDecl] is replaced by the
    table entry under it. *)
Definition resolve_slot (v : jsval) : jsval :=
  if is_TypeDecl v then v else TypeMap_at v.

Definition make_header (rettype : jsval) (name : string) (ps : params)
  : option FunctionHeader :=
  r ← as_decl (resolve_slot rettype);
  parameters ← mapM make_param (map (λ sp, (resolve_slot sp.1, sp.2)) ps);
  Some {| fh_type := r;
          fh_name := create_token T_IDENTIFIER name;
          fh_left_paren := create_token T_LEFT_PAREN "(";
          fh_right_paren := create_token T_RIGHT_PAREN ")";
          fh_incomplete := false;
          fh_parameters := parameters |}.

Definition make_proto (header : FunctionHeader) : FunctionProto :=
  {| fp_header := header;
     fp_semi := create_token T_SEMICOLON ";";
     fp_incomplete := false |}.

(** [define_builtin_function]: the result is the new prototype, or
    [undefined] when the signature was already in [FunctionMap]. *)
Definition define_builtin_function (rettype : jsval) (name : string)
    (ps : params) (c : catalogue) : option (option FunctionProto * catalogue) :=
  header ← make_header rettype name ps;
  let sig := signature header in
  if decide (is_Some (FunctionMap c !! sig)) then Some (None, c)
  else
    let f := make_proto header in
    Some (Some f,
          {| Functions := Functions c ++ [f];
             FunctionMap := <[sig := f]> (FunctionMap c);
             Operators := Operators c;
             OperatorMap := OperatorMap c |}).

Definition define_builtin_function_gen (gentypes : list token)
    (rettype : jsval) (name : string) (ps : params) (c : catalogue)
  : option catalogue :=
  let rettype :=
    match rettype with Null => Null | _ => TypeMap_at rettype end in
  for_each
    (λ gt c,
       let g := TypeMap_at (Tok gt) in
       let sp :=
         map (λ it : jsval * string,
                (match it.1 with Null => g | item => TypeMap_at item end, it.2))
             ps in
       snd <$> define_builtin_function
                 (match rettype with Null => g | _ => rettype end) name sp c)
    gentypes c.

Definition define_builtin_gentype_function (rettype : jsval) (name : string)
    (ps : params) : catalogue → option catalogue :=
  let gentypes := [T_FLOAT; T_VEC2; T_VEC3; T_VEC4] in
  define_builtin_function_gen gentypes rettype name ps.

Definition define_builtin_mat_function (rettype : jsval) (name : string)
    (ps : params) : catalogue → option catalogue :=
  let gentypes := [T_MAT2; T_MAT3; T_MAT4] in
  define_builtin_function_gen gentypes rettype name ps.

(** The object literal [vmap] of [define_builtin_relvec_function]. *)
Definition vmap : list (string * list token) :=
  [ ("bvec", [T_BVEC2; T_BVEC3; T_BVEC4]);
    ("vec",  [T_VEC2;  T_VEC3;  T_VEC4]);
    ("ivec", [T_IVEC2; T_IVEC3; T_IVEC4]) ].

Fixpoint vmap_get (k : string) (m : list (string * list token))
  : option (list token) :=
  match m with
  | [] => None
  | (k', v) :: m' => if decide (k = k') then Some v else vmap_get k m'
  end.

(** [v in vmap ? vmap[v][i] : v].  Only a string can name an own key of
    [vmap]; [vmap[v][i]] past the end of the array is [undefined]. *)
Definition vmap_subst (i : nat) (v : jsval) : jsval :=
  match v with
  | Str s =>
      match vmap_get s vmap with
      | Some fam => match fam !! i with Some t => Tok t | None => Undefined end
      | None => v
      end
  | _ => v
  end.

Definition define_builtin_relvec_function (rettype : jsval) (name : string)
    (ps : params) (c : catalogue) : option catalogue :=
  for_each
    (λ i c,
       let ret := vmap_subst i rettype in
       let sp := map (λ p : jsval * string, (vmap_subst i p.1, p.2)) ps in
       snd <$> define_builtin_function ret name sp c)
    [0; 1; 2] c.

(* --------------------------------------------------------------------- *)
(* Registration of builtin operators                                     *)
(* --------------------------------------------------------------------- *)

(** [exports.TypeMap[v].type.type]; throws when the table has no entry. *)
Definition builtin_type_at (v : jsval) : option Type_.t :=
  d ← as_decl (TypeMap_at v); Some (at_type (td_type d)).

(** [x === null ? TypeMap[g].type.type : TypeMap[x].type.type]. *)
Definition type_or_gen (x : jsval) (g : token) : option Type_.t :=
  match x with
  | Null => builtin_type_at (Tok g)
  | _ => builtin_type_at x
  end.

Definition type_name (t : Type_.t) : string := js_string (Type_.name t).

Definition bin_signature (op : token) (l r : Type_.t) : string :=
  token_name op +:+ "(" +:+ type_name l +:+ "," +:+ type_name r +:+ ")".

Definition unary_signature (op : token) (e : Type_.t) : string :=
  token_name op +:+ "(" +:+ type_name e +:+ ")".

(** The tail of both generators: push the operator and store it under
    its signature, whatever was there. *)
Definition add_operator (sig : string) (o : Operator) (c : catalogue)
  : catalogue :=
  {| Functions := Functions c;
     FunctionMap := FunctionMap c;
     Operators := Operators c ++ [o];
     OperatorMap := <[sig := o]> (OperatorMap c) |}.

(** The body of the inner loop of [define_builtin_bin_operator_gen]. *)
Definition bin_operator_step (rettype : jsval) (op : token) (lhs rhs : jsval)
    (g : token) (c : catalogue) : option catalogue :=
  o_ret ← type_or_gen rettype g;
  o_lhs ← type_or_gen lhs g;
  o_rhs ← type_or_gen rhs g;
  let o := {| op := op; ret := o_ret; lhs := Some o_lhs; rhs := Some o_rhs;
              expr := None |} in
  Some (add_operator (bin_signature op o_lhs o_rhs) o c).

Definition define_builtin_bin_operator_gen (rettype : jsval)
    (optypes : list token) (lhs rhs : jsval) (gens : list token)
  : catalogue → option catalogue :=
  for_each
    (λ op, for_each (λ g, bin_operator_step rettype op lhs rhs g) gens)
    optypes.

(** The body of the inner loop of [define_builtin_unary_operator_gen]. *)
Definition unary_operator_step (rettype : jsval) (op : token) (expr : jsval)
    (g : token) (c : catalogue) : option catalogue :=
  o_ret ← type_or_gen rettype g;
  o_expr ← type_or_gen expr g;
  let o := {| op := op; ret := o_ret; lhs := None; rhs := None;
              expr := Some o_expr |} in
  Some (add_operator (unary_signature op o_expr) o c).

Definition define_builtin_unary_operator_gen (rettype : jsval)
    (optypes : list token) (expr : jsval) (gens : list token)
  : catalogue → option catalogue :=
  for_each
    (λ op, for_each (λ g, unary_operator_step rettype op expr g) gens)
    optypes.

(* --------------------------------------------------------------------- *)
(* The registrations made when the module is loaded                      *)
(* --------------------------------------------------------------------- *)

(** One top-level call of the module. *)
Inductive registration : Set :=
  | Plain (rettype : jsval) (name : string) (ps : params)
  | Gentype (rettype : jsval) (name : string) (ps : params)
  | Mat (rettype : jsval) (name : string) (ps : params)
  | Relvec (rettype : jsval) (name : string) (ps : params)
  | BinOp (rettype : jsval) (optypes : list token) (lhs rhs : jsval)
          (gens : list token)
  | UnaryOp (rettype : jsval) (optypes : list token) (expr : jsval)
            (gens : list token).

Definition register (r : registration) (c : catalogue) : option catalogue :=
  match r with
  | Plain rt n ps => snd <$> define_builtin_function rt n ps c
  | Gentype rt n ps => define_builtin_gentype_function rt n ps c
  | Mat rt n ps => define_builtin_mat_function rt n ps c
  | Relvec rt n ps => define_builtin_relvec_function rt n ps c
  | BinOp rt ops l r gens => define_builtin_bin_operator_gen rt ops l r gens c
  | UnaryOp rt ops e gens => define_builtin_unary_operator_gen rt ops e gens c
  end.

Definition FLOAT : jsval := Tok T_FLOAT.

(** The function registrations, in source order. *)
Definition function_registrations : list registration :=
  [ (* Angle and Trigonometry functions *)
    Gentype Null "radians" [(Null, "degrees")];
    Gentype Null "degrees" [(Null, "radians")];
    Gentype Null "sin" [(Null, "angle")];
    Gentype Null "cos" [(Null, "angle")];
    Gentype Null "tan" [(Null, "angle")];
    Gentype Null "asin" [(Null, "x")];
    Gentype Null "acos" [(Null, "x")];
    Gentype Null "atan" [(Null, "y"); (Null, "x")];
    Gentype Null "atan" [(Null, "y_over_x")];
    (* Exponential Functions *)
    Gentype Null "pow" [(Null, "x"); (Null, "y")];
    Gentype Null "exp" [(Null, "x")];
    Gentype Null "log" [(Null, "x")];
    Gentype Null "exp2" [(Null, "x")];
    Gentype Null "log2" [(Null, "x")];
    Gentype Null "sqrt" [(Null, "x")];
    Gentype Null "inversesqrt" [(Null, "x")];
    (* Common Functions *)
    Gentype Null "abs" [(Null, "x")];
    Gentype Null "sign" [(Null, "x")];
    Gentype Null "floor" [(Null, "x")];
    Gentype Null "ceil" [(Null, "x")];
    Gentype Null "fract" [(Null, "x")];
    Gentype Null "mod" [(Null, "x"); (Null, "y")];
    Gentype Null "min" [(Null, "x"); (Null, "y")];
    Gentype Null "min" [(Null, "x"); (FLOAT, "y")];
    Gentype Null "max" [(Null, "x"); (Null, "y")];
    Gentype Null "max" [(Null, "x"); (FLOAT, "y")];
    Gentype Null "clamp" [(Null, "x"); (Null, "minVal"); (Null, "maxVal")];
    Gentype Null "clamp" [(Null, "x"); (FLOAT, "minVal"); (FLOAT, "maxVal")];
    Gentype Null "mix" [(Null, "x"); (Null, "y"); (Null, "a")];
    Gentype Null "mix" [(Null, "x"); (Null, "y"); (FLOAT, "a")];
    Gentype Null "step" [(Null, "edge"); (Null, "x")];
    Gentype Null "step" [(FLOAT, "edge"); (Null, "x")];
    Gentype Null "smoothstep" [(Null, "edge0"); (Null, "edge1"); (Null, "x")];
    Gentype Null "smoothstep" [(FLOAT, "edge0"); (FLOAT, "edge1"); (Null, "x")];
    (* Geometric Functions *)
    Gentype FLOAT "length" [(Null, "x")];
    Gentype FLOAT "distance" [(Null, "p0"); (Null, "p1")];
    Gentype FLOAT "dot" [(Null, "x"); (Null, "y")];
    Plain (Tok T_VEC3) "cross" [(Tok T_VEC3, "x"); (Tok T_VEC3, "y")];
    Gentype Null "normalize" [(Null, "x")];
    Gentype Null "faceforward" [(Null, "N"); (Null, "I"); (Null, "Nref")];
    Gentype Null "reflect" [(Null, "I"); (Null, "N")];
    Gentype Null "refract" [(Null, "I"); (Null, "N"); (FLOAT, "eta")];
    (* Matrix Functions *)
    Mat Null "matrixCompMult" [(Null, "x"); (Null, "y")];
    (* Vector Relational Functions *)
    Relvec (Str "bvec") "lessThan" [(Str "vec", "x"); (Str "vec", "y")];
    Relvec (Str "bvec") "lessThan" [(Str "ivec", "x"); (Str "ivec", "y")];
    Relvec (Str "bvec") "lessThanEqual" [(Str "vec", "x"); (Str "vec", "y")];
    Relvec (Str "bvec") "lessThanEqual" [(Str "ivec", "x"); (Str "ivec", "y")];
    Relvec (Str "bvec") "greaterThan" [(Str "vec", "x"); (Str "vec", "y")];
    Relvec (Str "bvec") "greaterThan" [(Str "ivec", "x"); (Str "ivec", "y")];
    Relvec (Str "bvec") "greaterThanEqual" [(Str "vec", "x"); (Str "vec", "y")];
    Relvec (Str "bvec") "greaterThanEqual" [(Str "ivec", "x"); (Str "ivec", "y")];
    Relvec (Str "bvec") "equal" [(Str "vec", "x"); (Str "vec", "y")];
    Relvec (Str "bvec") "equal" [(Str "ivec", "x"); (Str "ivec", "y")];
    Relvec (Str "bvec") "notEqual" [(Str "vec", "x"); (Str "vec", "y")];
    Relvec (Str "bvec") "notEqual" [(Str "ivec", "x"); (Str "ivec", "y")];
    Relvec (Str "bvec") "notEqual" [(Str "bvec", "x"); (Str "bvec", "y")];
    Relvec (Tok T_BOOL) "any" [(Str "bvec", "x")];
    Relvec (Tok T_BOOL) "all" [(Str "bvec", "x")];
    Relvec (Str "bvec") "not" [(Str "bvec", "x")];
    (* Texture Lookup Functions *)
    Plain (Tok T_VEC4) "texture2D"
      [(Tok T_SAMPLER2D, "sampler"); (Tok T_VEC2, "coord")];
    Plain (Tok T_VEC4) "texture2D"
      [(Tok T_SAMPLER2D, "sampler"); (Tok T_VEC2, "coord"); (FLOAT, "bias")];
    Plain (Tok T_VEC4) "texture2DProj"
      [(Tok T_SAMPLER2D, "sampler"); (Tok T_VEC3, "coord")];
    Plain (Tok T_VEC4) "texture2DProj"
      [(Tok T_SAMPLER2D, "sampler"); (Tok T_VEC3, "coord"); (FLOAT, "bias")];
    Plain (Tok T_VEC4) "texture2DProj"
      [(Tok T_SAMPLER2D, "sampler"); (Tok T_VEC4, "coord")];
    Plain (Tok T_VEC4) "texture2DProj"
      [(Tok T_SAMPLER2D, "sampler"); (Tok T_VEC4, "coord"); (FLOAT, "bias")];
    Plain (Tok T_VEC4) "texture2DLod"
      [(Tok T_SAMPLER2D, "sampler"); (Tok T_VEC2, "coord"); (FLOAT, "lod")];
    Plain (Tok T_VEC4) "texture2DProjLod"
      [(Tok T_SAMPLER2D, "sampler"); (Tok T_VEC3, "coord"); (FLOAT, "lod")];
    Plain (Tok T_VEC4) "texture2DProjLod"
      [(Tok T_SAMPLER2D, "sampler"); (Tok T_VEC4, "coord"); (FLOAT, "lod")];
    Plain (Tok T_VEC4) "textureCube"
      [(Tok T_SAMPLERCUBE, "sampler"); (Tok T_VEC3, "coord")];
    Plain (Tok T_VEC4) "textureCube"
      [(Tok T_SAMPLERCUBE, "sampler"); (Tok T_VEC3, "coord"); (FLOAT, "bias")];
    Plain (Tok T_VEC4) "textureCubeLod"
      [(Tok T_SAMPLERCUBE, "sampler"); (Tok T_VEC3, "coord"); (FLOAT, "lod")] ].

Definition arithmetic_ops : list token := [T_PLUS; T_DASH; T_STAR; T_SLASH].

(** The operator registrations, in source order. *)
Definition operator_registrations : list registration :=
  [ BinOp Null arithmetic_ops Null Null
      [T_INT; T_FLOAT; T_VEC2; T_VEC3; T_VEC4; T_MAT2; T_MAT3; T_MAT4;
       T_IVEC2; T_IVEC3; T_IVEC4];
    BinOp Null arithmetic_ops (Tok T_FLOAT) Null
      [T_VEC2; T_VEC3; T_VEC4; T_MAT2; T_MAT3; T_MAT3];
    BinOp Null arithmetic_ops Null (Tok T_FLOAT)
      [T_VEC2; T_VEC3; T_VEC4; T_MAT2; T_MAT3; T_MAT3];
    BinOp Null arithmetic_ops (Tok T_INT) Null [T_IVEC2; T_IVEC3; T_IVEC4];
    BinOp Null arithmetic_ops Null (Tok T_INT) [T_IVEC2; T_IVEC3; T_IVEC4];
    (* Matrix/vector multiplication *)
    BinOp Null [T_STAR] (Tok T_MAT2) Null [T_VEC2];
    BinOp Null [T_STAR] (Tok T_MAT3) Null [T_VEC3];
    BinOp Null [T_STAR] (Tok T_MAT4) Null [T_VEC4];
    BinOp Null [T_STAR] (Tok T_VEC2) Null [T_MAT2];
    BinOp Null [T_STAR] (Tok T_VEC3) Null [T_MAT3];
    BinOp Null [T_STAR] (Tok T_VEC4) Null [T_MAT4];
    (* Relational operators *)
    BinOp (Tok T_BOOL) [T_LEFT_ANGLE_OP; T_RIGHT_ANGLE; T_LE_OP; T_GE_OP]
      Null Null [T_FLOAT; T_INT];
    (* Logical operators *)
    BinOp (Tok T_BOOL) [T_EQ_OP; T_NE_OP] Null Null
      [T_INT; T_FLOAT; T_BOOL; T_VEC2; T_VEC3; T_VEC4; T_MAT2; T_MAT3; T_MAT4;
       T_IVEC2; T_IVEC3; T_IVEC4];
    BinOp Null [T_AND_OP; T_OR_OP; T_XOR_OP] Null Null [T_BOOL];
    (* Unary operators *)
    UnaryOp Null [T_DASH; T_DEC_OP; T_INC_OP] Null
      [T_INT; T_FLOAT; T_VEC2; T_VEC3; T_VEC4; T_MAT2; T_MAT3; T_MAT4;
       T_IVEC2; T_IVEC3; T_IVEC4];
    UnaryOp Null [T_BANG] Null [T_BOOL] ].

Definition registrations : list registration :=
  function_registrations ++ operator_registrations.

(** Loading the module once, from the empty tables. *)
Definition load_from (c : catalogue) : option catalogue :=
  for_each register registrations c.

Definition builtins : option catalogue := load_from empty_catalogue.

(* ===================================================================== *)
(* The location of a JavaScript runtime error                            *)
(* ===================================================================== *)

Module App.

(** The fields of an error object that the handler reads;
    [originalStack] may be missing. *)
Record JsError : Set := mkJsError {
  message : string;
  originalStack : option string;
  stack : string
}.

Definition newline : ascii := "010"%char.

(** [s.split('\n')]. *)
Fixpoint split_lines (s : string) : list string :=
  match s with
  | EmptyString => [EmptyString]
  | String a s' =>
      if Ascii.eqb a newline then EmptyString :: split_lines s'
      else match split_lines s' with
           | l :: ls => String a l :: ls
           | [] => [String a EmptyString]
           end
  end.

(** The regular expressions in use are sequences of literals and of
    the group [([0-9]+)], closed by [$]. *)
Inductive atom : Set :=
  | Lit (s : string)
  | Digits.

Definition regexp : Set := list atom.

Definition is_digit (a : ascii) : bool :=
  match a with
  | "0" | "1" | "2" | "3" | "4" | "5" | "6" | "7" | "8" | "9" => true
  | _ => false
  end%char.

Fixpoint strip_prefix (l s : string) : option string :=
  match l with
  | EmptyString => Some s
  | String a l' =>
      match s with
      | String b s' => if Ascii.eqb a b then strip_prefix l' s' else None
      | EmptyString => None
      end
  end.

(** [[0-9]+] followed by the rest of the expression [k]: the longest
    run of digits first, then the shorter ones. *)
Fixpoint digits_then {R : Type} (k : string → string → option R)
    (acc s : string) : option R :=
  match s with
  | String a s' =>
      if is_digit a then
        let acc' := acc +:+ String a EmptyString in
        match digits_then k acc' s' with
        | Some r => Some r
        | None => k acc' s'
        end
      else None
  | EmptyString => None
  end.

(** A match of the expression that starts at the head of [s] and ends
    at the end of [s]; the result lists the groups. *)
Fixpoint match_here (re : regexp) (s : string) : option (list string) :=
  match re with
  | [] => match s with EmptyString => Some [] | _ => None end
  | Lit l :: re' => s' ← strip_prefix l s; match_here re' s'
  | Digits :: re' =>
      digits_then (λ d s', caps ← match_here re' s'; Some (d :: caps))
                  EmptyString s
  end.

(** [s.match(re)]: the leftmost start that matches.  The result holds
    the groups [m[1]], [m[2]], ... (not the whole match [m[0]]). *)
Fixpoint regexp_match (re : regexp) (s : string) : option (list string) :=
  match match_here re s with
  | Some caps => Some caps
  | None =>
      match s with
      | EmptyString => None
      | String _ s' => regexp_match re s'
      end
  end.

(** [m[i]] for a group index [i >= 1]. *)
Definition group (m : list string) (i : nat) : string :=
  default EmptyString (m !! pred i).

(** [/, <anonymous>:([0-9]+):([0-9]+)\)$/] *)
Definition anon : regexp :=
  [Lit ", <anonymous>:"; Digits; Lit ":"; Digits; Lit ")"].

(** [/> Function:([0-9]+):([0-9]+)$/] *)
Definition func : regexp :=
  [Lit "> Function:"; Digits; Lit ":"; Digits].

Definition digit_value (a : ascii) : Z := Z.of_nat (nat_of_ascii a) - 48.

Fixpoint parse_digits (acc : Z) (s : string) : Z :=
  match s with
  | String a s' =>
      if is_digit a then parse_digits (10 * acc + digit_value a) s' else acc
  | EmptyString => acc
  end.

(** [parseInt] of a group, which is a run of decimal digits: its
    value (what a JavaScript number holds exactly below 2^53). *)
Definition parseInt (s : string) : Z := parse_digits 0 s.

Record location : Set := mkLocation { line : Z; column : Z }.

(** The loop over the lines of the stack. *)
Fixpoint scan_lines (lines : list string) : option location :=
  match lines with
  | [] => None
  | l :: rest =>
      match regexp_match anon l with
      | Some m =>
          Some {| line := parseInt (group m 1) - 1;
                  column := parseInt (group m 2) |}
      | None =>
          match regexp_match func l with
          | Some m =>
              Some {| line := parseInt (group m 1);
                      column := parseInt (group m 2) |}
          | None => scan_lines rest
          end
      end
  end.

(** [e.originalStack || e.stack]: a missing or empty [originalStack]
    is falsy. *)
Definition stack_of (e : JsError) : string :=
  match originalStack e with
  | Some (String a s) => String a s
  | _ => stack e
  end.

Definition _extract_js_error_loc (e : JsError) : option location :=
  scan_lines (split_lines (stack_of e)).

(** What the handler does with the error. *)
Inductive effect : Set :=
  | runtime_error (message : string) (location : location)
  | console_error (stack : string).

Definition _handle_js_error (e : JsError) : effect :=
  match _extract_js_error_loc e with
  | Some loc => runtime_error (message e) loc
  | None => console_error (stack e)
  end.

(** ** The two shapes of a stack line *)

Fixpoint all_digits (s : string) : bool :=
  match s with
  | EmptyString => true
  | String a s' => is_digit a && all_digits s'
  end.

(** A non-empty run of decimal digits. *)
Definition digit_string (d : string) : Prop :=
  d ≠ EmptyString ∧ all_digits d = true.

(** Chrome: the line ends in [, <anonymous>:LINE:COLUMN)]. *)
Definition chrome_frame (l d1 d2 : string) : Prop :=
  digit_string d1 ∧ digit_string d2 ∧
  ∃ pre, l = pre +:+ ", <anonymous>:" +:+ d1 +:+ ":" +:+ d2 +:+ ")".

(** Firefox: the line ends in [> Function:LINE:COLUMN]. *)
Definition firefox_frame (l d1 d2 : string) : Prop :=
  digit_string d1 ∧ digit_string d2 ∧
  ∃ pre, l = pre +:+ "> Function:" +:+ d1 +:+ ":" +:+ d2.

(** The strings an expression denotes, with their groups. *)
Inductive matches : regexp → string → list string → Prop :=
  | matches_end : matches [] EmptyString []
  | matches_lit l re s caps :
      matches re s caps → matches (Lit l :: re) (l +:+ s) caps
  | matches_digits d re s caps :
      digit_string d → matches re s caps →
      matches (Digits :: re) (d +:+ s) (d :: caps).

End App.

(** The earlier revision of the same two methods, which reads only the
    first two lines of [e.stack]. *)
Module Legacy.

(** A call either returns or throws a TypeError. *)
Inductive outcome (A : Type) : Type :=
  | Returned (x : A)
  | TypeError.
Arguments Returned {A} x.
Arguments TypeError {A}.

(** [lines[1].match(anon)] throws when the stack has a single line;
    the Firefox branch tests the expression [func] itself, which is
    always truthy, and so reads [m[1]] even when [m] is [null]. *)
Definition _extract_js_error_loc (e : App.JsError)
  : outcome (option App.location) :=
  let lines := App.split_lines (App.stack e) in
  match lines !! 1 with
  | None => TypeError
  | Some l1 =>
      match App.regexp_match App.anon l1 with
      | Some m =>
          Returned (Some {| App.line := App.parseInt (App.group m 1) - 1;
                            App.column := App.parseInt (App.group m 2) |})
      | None =>
          match lines !! 0 with
          | None => TypeError
          | Some l0 =>
              match App.regexp_match App.func l0 with
              | Some m =>
                  Returned (Some {| App.line := App.parseInt (App.group m 1);
                                    App.column := App.parseInt (App.group m 2) |})
              | None => TypeError
              end
          end
      end
  end.

(** The handler of that revision reports a runtime error with whatever
    the extraction returned. *)
Inductive effect : Set :=
  | runtime_error (message : string) (location : option App.location).

Definition _handle_js_error (e : App.JsError) : outcome effect :=
  match _extract_js_error_loc e with
  | Returned loc => Returned (runtime_error (App.message e) loc)
  | TypeError => TypeError
  end.

End Legacy.
(* ===================================================================== *)
(* The document store                                                    *)
(* ===================================================================== *)

(** The part of the browser's IndexedDB that the store drives: the
    object store [documents] as [Store.prototype._onupgradeneeded]
    creates it (key path [id], auto-increment) with its index on
    [modification_time], after the IndexedDB specification. *)
Module IDB.

(** The values found in a document.  Numbers and dates are kept by
    their integral value; [JOther] stands for any other value (nested
    objects, arrays), none of which is used as a key here. *)
Inductive jsvalue : Set :=
  | JUndefined
  | JNull
  | JBool (b : bool)
  | JNum (n : Z)
  | JStr (s : string)
  | JDate (ms : Z)
  | JOther (tag : string).

#[global] Instance jsvalue_eq_dec : EqDecision jsvalue.
Proof. solve_decision. Defined.

(** A document is a plain object: a finite map from property names. *)
Abbreviation document := (gmap string jsvalue).

(** [doc[name]]: a missing property reads as [undefined]. *)
Definition prop (doc : document) (name : string) : jsvalue :=
  default JUndefined (doc !! name).

(** [name in doc]. *)
Definition has_prop (name : string) (doc : document) : bool :=
  bool_decide (is_Some (doc !! name)).

(** The valid keys: numbers, dates and strings. *)
Inductive key : Set :=
  | KNum (n : Z)
  | KDate (ms : Z)
  | KStr (s : string).

#[global] Instance key_eq_dec : EqDecision key.
Proof. solve_decision. Defined.

#[global] Instance key_countable : Countable key :=
  inj_countable'
    (λ k, match k with
          | KNum n => inl n
          | KDate ms => inr (inl ms)
          | KStr s => inr (inr s)
          end)
    (λ x, match x with
          | inl n => KNum n
          | inr (inl ms) => KDate ms
          | inr (inr s) => KStr s
          end)
    (λ k, match k with KNum _ | KDate _ | KStr _ => eq_refl end).

Definition to_key (v : jsvalue) : option key :=
  match v with
  | JNum n => Some (KNum n)
  | JDate ms => Some (KDate ms)
  | JStr s => Some (KStr s)
  | _ => None
  end.

Definition of_key (k : key) : jsvalue :=
  match k with
  | KNum n => JNum n
  | KDate ms => JDate ms
  | KStr s => JStr s
  end.

(** The order of keys: every number is below every date, every date
    below every string. *)
Definition key_le (a b : key) : Prop :=
  match a, b with
  | KNum x, KNum y => (x ≤ y)%Z
  | KNum _, _ => True
  | KDate _, KNum _ => False
  | KDate x, KDate y => (x ≤ y)%Z
  | KDate _, KStr _ => True
  | KStr x, KStr y => String.le x y
  | KStr _, _ => False
  end.

#[global] Instance key_le_dec : RelDecision key_le.
Proof. intros [x|x|x] [y|y|y]; simpl; apply _. Defined.

(** The store: its records by primary key, and the current value of
    its key generator. *)
Record database : Type := mkDatabase {
  records : gmap key document;
  generator : Z
}.

(** How a call on the object store ends: it throws before a request
    exists ([DataError], for a value that is no valid key), or the
    request fires [success] with a result, or it fires [error]. *)
Inductive outcome : Type :=
  | Threw
  | Succeeded (result : jsvalue) (db : database)
  | Failed.

(** A numeric key at or above the generator's value moves it on. *)
Definition bump (k : key) (g : Z) : Z :=
  match k with
  | KNum n => if decide (g ≤ n)%Z then (n + 1)%Z else g
  | _ => g
  end.

(** [store.delete(v)]. *)
Definition store_delete (v : jsvalue) (db : database) : outcome :=
  match to_key v with
  | None => Threw
  | Some k =>
      Succeeded JUndefined
        {| records := delete k (records db); generator := generator db |}
  end.

(** Storing under a fresh key from the generator; the key is written
    into the stored copy at the key path. *)
Definition store_generated (doc : document) (db : database) : outcome :=
  let n := generator db in
  Succeeded (JNum n)
    {| records := <[KNum n := <["id" := JNum n]> doc]> (records db);
       generator := (n + 1)%Z |}.

(** [store.add(doc)]. *)
Definition store_add (doc : document) (db : database) : outcome :=
  match doc !! "id" with
  | None => store_generated doc db
  | Some v =>
      match to_key v with
      | None => Threw
      | Some k =>
          if decide (is_Some (records db !! k)) then Failed
          else Succeeded v {| records := <[k := doc]> (records db);
                              generator := bump k (generator db) |}
      end
  end.

(** [store.put(doc)]. *)
Definition store_put (doc : document) (db : database) : outcome :=
  match doc !! "id" with
  | None => store_generated doc db
  | Some v =>
      match to_key v with
      | None => Threw
      | Some k =>
          Succeeded v {| records := <[k := doc]> (records db);
                         generator := bump k (generator db) |}
      end
  end.

(** An index entry: the record's key in the index, its primary key and
    its value.  A record whose indexed property is no valid key has no
    entry. *)
Definition entry : Type := key * key * document.

Definition entry_of (field : string) (r : key * document) : option entry :=
  ik ← (r.2 !! field) ≫= to_key;
  Some (ik, r.1, r.2).

(** Entries are ordered by index key, then by primary key. *)
Definition entry_le (a b : entry) : Prop :=
  ¬ key_le b.1.1 a.1.1 ∨ (a.1.1 = b.1.1 ∧ key_le a.1.2 b.1.2).

#[global] Instance entry_le_dec : RelDecision entry_le.
Proof. intros a b. unfold entry_le. apply _. Defined.

(** [store.index(field)]: the entries in ascending order. *)
Definition index (field : string) (db : database) : list entry :=
  merge_sort entry_le (omap (entry_of field) (map_to_list (records db))).

(** [idx.openCursor(null, 'prev')]: the values the cursor visits, from
    the last entry of the index back to the first. *)
Definition openCursor_prev (field : string) (db : database) : list document :=
  snd <$> reverse (index field db).

End IDB.

(** The methods of [Store], on a store whose database has been opened
    ([this._db] is set).  A method registers its handlers and returns;
    here it is taken together with the handlers' run once the database
    has answered. *)
Module Store.
Import IDB.

(** The second argument of a call [cb(this, x)]. *)
Inductive cb_arg : Type :=
  | CbNull
  | CbDoc (doc : document)
  | CbDocs (docs : list document).

Inductive mode : Set := readonly | readwrite.

(** The calls made on the database. *)
Inductive idb_call : Type :=
  | Transaction (m : mode)
  | Delete (key : jsvalue)
  | Add (doc : document)
  | Put (doc : document)
  | OpenCursor (field direction : string).

(** What a method has done once its request has been answered: the
    calls on the database and the calls of [cb], both in order, whether
    an exception left the method, and the database afterwards. *)
Record run : Type := mkRun {
  calls : list idb_call;
  callbacks : list cb_arg;
  thrown : bool;
  db_after : database
}.

(** [Store.prototype.delete].  [fault] says that the platform fails
    the request for a reason of its own. *)
Definition delete (doc : document) (fault : bool) (db : database) : run :=
  let early := if has_prop "id" doc then [] else [CbNull] in
  let issued := [Transaction readwrite; Delete (prop doc "id")] in
  match store_delete (prop doc "id") db with
  | Threw =>
      {| calls := issued; callbacks := early; thrown := true; db_after := db |}
  | Succeeded _ db' =>
      if fault then
        {| calls := issued; callbacks := early ++ [CbNull]; thrown := false;
           db_after := db |}
      else
        {| calls := issued; callbacks := early ++ [CbDoc doc]; thrown := false;
           db_after := db' |}
  | Failed =>
      {| calls := issued; callbacks := early ++ [CbNull]; thrown := false;
         db_after := db |}
  end.

(** [Store.prototype.last]: the handler looks at the first answer of
    the cursor and does not ask for more. *)
Definition last (fault : bool) (db : database) : run :=
  let issued := [Transaction readonly; OpenCursor "modification_time" "prev"] in
  let answer :=
    if fault then CbNull
    else match openCursor_prev "modification_time" db with
         | value :: _ => CbDoc value
         | [] => CbNull
         end in
  {| calls := issued; callbacks := [answer]; thrown := false; db_after := db |}.

(** The handlers of [Store.prototype.all] over the answers of the
    cursor: each value is pushed onto [ret] and the cursor continued;
    the end of the cursor, or an error (at answer [fail_at]), hands
    [ret] to the callback. *)
Fixpoint all_answers (values : list document) (fail_at : option nat)
    (ret : list document) : cb_arg :=
  match fail_at with
  | Some 0 => CbDocs ret
  | _ =>
      match values with
      | [] => CbDocs ret
      | value :: rest => all_answers rest (pred <$> fail_at) (ret ++ [value])
      end
  end.

(** [Store.prototype.all]. *)
Definition all (fail_at : option nat) (db : database) : run :=
  let issued := [Transaction readonly; OpenCursor "modification_time" "prev"] in
  {| calls := issued;
     callbacks := [all_answers (openCursor_prev "modification_time" db) fail_at []];
     thrown := false;
     db_after := db |}.

(** The request [Store.prototype.save] makes. *)
Definition save_request (doc : document) (db : database) : outcome :=
  if has_prop "id" doc then store_put doc db else store_add doc db.

(** [Store.prototype.save]; [has_cb] says that [cb] is a function. *)
Definition save (doc : document) (has_cb fault : bool) (db : database) : run :=
  let issued :=
    [Transaction readwrite; if has_prop "id" doc then Put doc else Add doc] in
  let call x := if has_cb then [x] else [] in
  match save_request doc db with
  | Threw =>
      {| calls := issued; callbacks := []; thrown := true; db_after := db |}
  | Succeeded result db' =>
      if fault then
        {| calls := issued; callbacks := call CbNull; thrown := false;
           db_after := db |}
      else
        let doc' := if has_prop "id" doc then doc else <["id" := result]> doc in
        {| calls := issued; callbacks := call (CbDoc doc'); thrown := false;
           db_after := db' |}
  | Failed =>
      {| calls := issued; callbacks := call CbNull; thrown := false;
         db_after := db |}
  end.

End Store.

(* ===================================================================== *)
(* The syntax-tree dumper                                                *)
(* ===================================================================== *)

(** [utils/dumpast.js]: the helper [has_suffix] and what the script
    derives from the name of each file on its command line.  A string
    is the sequence of its code units. *)
Module Dumpast.

(** The string without its first [n] characters. *)
Fixpoint drop_chars (n : nat) (s : string) : string :=
  match n, s with
  | S n', String _ s' => drop_chars n' s'
  | _, _ => s
  end.

(** [s.slice(start)]: a negative [start] counts from the end of the
    string, and the position is clamped to the string. *)
Definition slice (s : string) (start : Z) : string :=
  let len := Z.of_nat (String.length s) in
  let from := if decide (start < 0)%Z then Z.max (len + start) 0
              else Z.min start len in
  drop_chars (Z.to_nat from) s.

Definition has_suffix (s suf : string) : bool :=
  bool_decide
    (slice s (Z.of_nat (String.length s) - Z.of_nat (String.length suf)) = suf).

Inductive source_type : Set := VERTEX | FRAGMENT.

(** The second argument of [new glsl.ast.Parser] for the file [path]. *)
Definition parser_type (path : string) : source_type :=
  if has_suffix path ".glslv" then VERTEX else FRAGMENT.

(** The file the tree is written to. *)
Definition ast_path (path : string) : string := path +:+ ".ast".

End Dumpast.

(* ===================================================================== *)
(* Relative dates                                                        *)
(* ===================================================================== *)

(** [App.prototype._rel_date].  The two dates are given by their time
    values, which are whole numbers of milliseconds; the numbers the
    method computes are taken as the exact rationals, which is what
    the double-precision arithmetic of the method yields for dates
    less than 2^51 ms apart (every threshold and every half-way point
    of [Math.round] is then met exactly or missed by far more than the
    rounding error).  [toDateString] is the platform's. *)
Module RelDate.
Section platform.
Variable toDateString : Z → string.

(** [Math.round]: the nearest integer, a tie going up. *)
Definition round (x : Q) : Z := Qfloor (x + (1 # 2)).

Definition MINUTE : Q := 60.
Definition HOUR : Q := MINUTE * 60.
Definition DAY : Q := HOUR * 24.
Definition WEEK : Q := DAY * 7.

Definition _rel_date (now date : Z) : string :=
  let t := (inject_Z (now - date) / 1000)%Q in
  if Qlt_le_dec t ((59 # 2) * MINUTE) then
    let mins := round (t / MINUTE) in
    if decide (mins = 0%Z) then "less than a minute ago"
    else if decide (mins = 1%Z) then "a minute ago"
    else pretty mins +:+ " minutes ago"
  else if Qlt_le_dec t (45 * MINUTE) then "half an hour ago"
  else if Qlt_le_dec t ((47 # 2) * HOUR) then
    let hours := round (t / HOUR) in
    if decide (hours = 1%Z) then "an hour ago"
    else pretty hours +:+ " hours ago"
  else if Qlt_le_dec t (7 * DAY) then
    let days := round (t / DAY) in
    if decide (days = 1%Z) then "a day ago"
    else pretty days +:+ " days ago"
  else "on " +:+ toDateString date.

End platform.
End RelDate.

(* ===================================================================== *)
(* Saving with a delay                                                   *)
(* ===================================================================== *)

(** [App.prototype._save_current_doc_with_delay] and the timers of the
    platform it drives: [setTimeout] returns a handle greater than zero
    that no pending timer has, [clearTimeout] drops the pending timer
    with the given handle, if there is one, and a pending timer may
    elapse, which runs its function once. *)
Module Autosave.
Section callbacks.
Context {callback : Type}.

(** The values [this._save_timeout] takes; the constructor does not
    set the field. *)
Inductive handle : Set :=
  | Undefined
  | Num (n : Z).

#[global] Instance handle_eq_dec : EqDecision handle.
Proof. solve_decision. Defined.

(** The application and the platform: the field, the pending timers
    with the callback each was set up for, and the calls
    [this._save_current_doc(cb)] made so far. *)
Record state : Type := mkState {
  _save_timeout : handle;
  pending : list (Z * callback);
  saved : list callback
}.

Definition initial : state :=
  {| _save_timeout := Undefined; pending := []; saved := [] |}.

Definition clearTimeout (h : handle) (timers : list (Z * callback))
  : list (Z * callback) :=
  match h with
  | Num n => filter (λ t, t.1 ≠ n) timers
  | Undefined => timers
  end.

(** [_save_current_doc_with_delay(cb)], where [setTimeout] returns [h];
    [None] when the platform cannot return that handle. *)
Definition _save_current_doc_with_delay (cb : callback) (h : Z) (st : state)
  : option state :=
  let st :=
    if decide (_save_timeout st ≠ Num 0) then
      {| _save_timeout := Num 0;
         pending := clearTimeout (_save_timeout st) (pending st);
         saved := saved st |}
    else st in
  if decide (0 < h ∧ h ∉ (pending st).*1)%Z then
    Some {| _save_timeout := Num h;
            pending := pending st ++ [(h, cb)];
            saved := saved st |}
  else None.

(** The timer with the handle [h] elapses and its function runs;
    [None] when no such timer is pending. *)
Definition elapse (h : Z) (st : state) : option state :=
  match list_find (λ t, t.1 = h) (pending st) with
  | Some (_, (_, cb)) =>
      Some {| _save_timeout := Num 0;
              pending := filter (λ t, t.1 ≠ h) (pending st);
              saved := saved st ++ [cb] |}
  | None => None
  end.

Inductive event : Type :=
  | Changed (cb : callback) (h : Z)
  | Elapsed (h : Z).

Definition step (st : state) (ev : event) : option state :=
  match ev with
  | Changed cb h => _save_current_doc_with_delay cb h st
  | Elapsed h => elapse h st
  end.

(** A sequence of events; [None] when it cannot happen. *)
Fixpoint run (evs : list event) (st : state) : option state :=
  match evs with
  | [] => Some st
  | ev :: evs' => st' ← step st ev; run evs' st'
  end.

End callbacks.
Arguments state : clear implicits.
Arguments event : clear implicits.
End Autosave.

(* ===================================================================== *)
(* Definitions used to state the properties                              *)
(* ===================================================================== *)

(* --------------------------------------------------------------------- *)
(* Builtin types                                                         *)
(* --------------------------------------------------------------------- *)

(** The decimal digit that ends the keyword of an [N]-component type. *)
Definition arity_digit (N : nat) : string :=
  match N with
  | 2 => "2" | 3 => "3" | 4 => "4"
  | _ => "?"
  end.

(** [named T s]: the display name of [T] is the keyword [s]. *)
Definition named (T : Type_.t) (s : string) : Prop := Type_.name T = Some s.

(* --------------------------------------------------------------------- *)
(* The tables                                                            *)
(* --------------------------------------------------------------------- *)

(** The tables of operators as a registration of functions leaves them. *)
Definition same_operators (c c' : catalogue) : Prop :=
  Operators c' = Operators c ∧ OperatorMap c' = OperatorMap c.

(** The return type an operator registration gives to the entry it
    generates for the type [g]: the explicit one, else that of [g]. *)
Definition registered_ret (rettype : jsval) (g : token) : Type_.t :=
  Type_.new (match rettype with Tok t => t | _ => g end).

(** [o] is the entry generated for the operator [op'] and the type
    [g]. *)
Definition generated_as (rettype : jsval) (op' g : token) (o : Operator) : Prop :=
  op o = op' ∧ ret o = registered_ret rettype g.

(** A property of the tables the module has built once it is loaded
    (which includes that loading does not throw). *)
Definition when_loaded (P : catalogue → Prop) : Prop :=
  match builtins with Some cat => P cat | None => False end.

(** The same for a check that computes. *)
Definition holds_when_loaded (chk : catalogue → bool) : Prop :=
  when_loaded (λ cat, chk cat = true).

(** The relational operators [<], [>], [<=], [>=] and the equality
    operators [==], [!=]. *)
Definition comparison_ops : list token :=
  [T_LEFT_ANGLE_OP; T_RIGHT_ANGLE; T_LE_OP; T_GE_OP; T_EQ_OP; T_NE_OP].

(** An entry of one of these operators returns [bool]. *)
Definition comparison_returns_bool (o : Operator) : Prop :=
  op o ∈ comparison_ops → ret o = Type_.new T_BOOL.

#[global] Instance comparison_returns_bool_dec o :
  Decision (comparison_returns_bool o).
Proof. unfold comparison_returns_bool. apply _. Defined.

(** The matrix types, each with the vector type of its size. *)
Definition matrix_vector_pairs : list (token * token) :=
  [(T_MAT2, T_VEC2); (T_MAT3, T_VEC3); (T_MAT4, T_VEC4)].

(** The entry stored under the signature of [l * r], with its return
    type. *)
Definition star_entry (cat : catalogue) (l r result : token) : Prop :=
  ∃ o, OperatorMap cat !! bin_signature T_STAR (Type_.new l) (Type_.new r)
         = Some o ∧
       op o = T_STAR ∧ lhs o = Some (Type_.new l) ∧
       rhs o = Some (Type_.new r) ∧ ret o = Type_.new result.

#[global] Instance star_entry_dec cat l r result :
  Decision (star_entry cat l r result).
Proof.
  unfold star_entry.
  destruct (OperatorMap cat !! bin_signature T_STAR (Type_.new l) (Type_.new r))
    as [o|].
  - destruct (decide (op o = T_STAR ∧ lhs o = Some (Type_.new l) ∧
                      rhs o = Some (Type_.new r) ∧ ret o = Type_.new result)).
    + left. eauto.
    + right. intros (o' & [= <-] & H). done.
  - right. intros (o' & [=] & _).
Defined.

(* --------------------------------------------------------------------- *)
(* Generic expansion                                                     *)
(* --------------------------------------------------------------------- *)

#[global] Instance jsval_eq_dec : EqDecision jsval.
Proof. solve_decision. Defined.

#[global] Instance registration_eq_dec : EqDecision registration.
Proof. solve_decision. Defined.

(** The prototype of a builtin function given by the tokens of its
    return and parameter types. *)
Definition builtin_param (p : token * string) : ParamDecl :=
  {| pd_type := td_type (builtin_decl p.1);
     pd_name := create_token T_IDENTIFIER p.2 |}.

Definition builtin_proto (rettype : token) (name : string)
    (ps : list (token * string)) : FunctionProto :=
  make_proto
    {| fh_type := builtin_decl rettype;
       fh_name := create_token T_IDENTIFIER name;
       fh_left_paren := create_token T_LEFT_PAREN "(";
       fh_right_paren := create_token T_RIGHT_PAREN ")";
       fh_incomplete := false;
       fh_parameters := builtin_param <$> ps |}.

(** The signature, the declared name and the types of an entry. *)
Definition proto_signature (f : FunctionProto) : string :=
  signature (fp_header f).

Definition proto_name (f : FunctionProto) : string :=
  tok_text (fh_name (fp_header f)).

Definition proto_param_types (f : FunctionProto) : list Type_.t :=
  (λ p, at_type (pd_type p)) <$> fh_parameters (fp_header f).

(** The entries of [Functions] stored under a signature. *)
Definition entries_with_signature (sig : string) (cat : catalogue)
  : list FunctionProto :=
  filter (λ f, proto_signature f = sig) (Functions cat).

(** The entries of [Functions] that declare a function name. *)
Definition entries_named (n : string) (cat : catalogue) : list FunctionProto :=
  filter (λ f, proto_name f = n) (Functions cat).

(** The concrete generic types. *)
Definition gentypes : list token := [T_FLOAT; T_VEC2; T_VEC3; T_VEC4].

(** The generic marker [null] stands for the concrete type [g]; a token
    stands for itself. *)
Definition concrete_slot (g : token) (v : jsval) : token :=
  match v with Tok t => t | _ => g end.

(** The entry a gentype registration is to produce for the concrete
    type [g]: the marker replaced by [g] in every generic parameter slot
    and in the return type when that is generic. *)
Definition gentype_instance (rettype : jsval) (n : string) (ps : params)
    (g : token) : FunctionProto :=
  builtin_proto (concrete_slot g rettype) n
                ((λ p, (concrete_slot g p.1, p.2)) <$> ps).

(** All tokens, to range over the types that are not generic. *)
Definition all_tokens : list token :=
  [ T_VOID; T_FLOAT; T_INT; T_BOOL; T_VEC2; T_VEC3; T_VEC4;
    T_BVEC2; T_BVEC3; T_BVEC4; T_IVEC2; T_IVEC3; T_IVEC4;
    T_MAT2; T_MAT3; T_MAT4; T_SAMPLER2D; T_SAMPLERCUBE;
    T_PLUS; T_DASH; T_STAR; T_SLASH;
    T_LEFT_ANGLE_OP; T_RIGHT_ANGLE; T_LE_OP; T_GE_OP; T_EQ_OP; T_NE_OP;
    T_AND_OP; T_OR_OP; T_XOR_OP; T_DEC_OP; T_INC_OP; T_BANG;
    T_IDENTIFIER; T_SEMICOLON; T_LEFT_PAREN; T_RIGHT_PAREN ].

(** What the loaded tables hold for one gentype registration. *)
Definition gentype_expanded (cat : catalogue) (rettype : jsval) (n : string)
    (ps : params) : Prop :=
  Forall (λ g,
            let f := gentype_instance rettype n ps g in
            FunctionMap cat !! proto_signature f = Some f ∧
            entries_with_signature (proto_signature f) cat = [f])
         gentypes ∧
  Forall (λ f,
            Exists (λ r, match r with
                         | Gentype rettype' n' ps' =>
                             n' = n ∧
                             Exists (λ g, f = gentype_instance rettype' n ps' g)
                                    gentypes
                         | _ => False
                         end) function_registrations ∧
            Forall (λ T, Exists (λ g, T = Type_.new g) gentypes)
                   (proto_param_types f))
         (entries_named n cat) ∧
  Forall (λ t,
            t ∈ gentypes ∨
            FunctionMap cat !!
              proto_signature (gentype_instance rettype n ps t) = None)
         all_tokens.

#[global] Instance gentype_expanded_dec cat rettype n ps :
  Decision (gentype_expanded cat rettype n ps).
Proof.
  unfold gentype_expanded.
  apply and_dec; [apply _|]. apply and_dec; [|apply _].
  apply Forall_dec. intros f. apply and_dec; [|apply _].
  apply Exists_dec. intros [ | | | | | ]; apply _.
Defined.

(** The same for all the gentype registrations of the module. *)
Definition gentype_registrations_expanded (cat : catalogue) : Prop :=
  Forall (λ r, match r with
               | Gentype rettype n ps => gentype_expanded cat rettype n ps
               | _ => True
               end) function_registrations.

#[global] Instance gentype_registrations_expanded_dec cat :
  Decision (gentype_registrations_expanded cat).
Proof. apply Forall_dec. intros [ | | | | | ]; apply _. Defined.

(** The builtin type token that carries a keyword. *)
Definition token_named (s : string) : option token :=
  head (filter (λ t, Type_._name t = Some s) btypetoks).

(** The member of a family ([bvec], [vec], [ivec]) at an index: index 0
    is the two-component type, index 1 the three-component one, index 2
    the four-component one. *)
Definition family_member (fam : string) (i : nat) : option token :=
  token_named (fam +:+ arity_digit (i + 2)).

(** A slot at an index: a family marker stands for its member at that
    index, a token for itself. *)
Definition lockstep_slot (i : nat) (v : jsval) : option token :=
  match v with
  | Str fam => family_member fam i
  | Tok t => Some t
  | _ => None
  end.

(** The entry a relational-vector registration is to produce at an
    index: every family marker replaced by the member of its own family
    at that index. *)
Definition relvec_instance (rettype : jsval) (n : string) (ps : params)
    (i : nat) : option FunctionProto :=
  r ← lockstep_slot i rettype;
  ps' ← mapM (λ p : jsval * string, t ← lockstep_slot i p.1; Some (t, p.2)) ps;
  Some (builtin_proto r n ps').

(** The return type of an entry. *)
Definition proto_ret_type (f : FunctionProto) : Type_.t :=
  at_type (td_type (fh_type (fp_header f))).

(** The vector types among the return and parameter types of an entry
    all have the same number of components. *)
Definition one_arity (f : FunctionProto) : Prop :=
  let vecs := filter (λ T, Type_.is_vec T = true)
                     (proto_ret_type f :: proto_param_types f) in
  Forall (λ T, Forall (λ T', Type_.length T = Type_.length T') vecs) vecs.

(** A relational-vector registration of the function [n]. *)
Definition is_relvec_named (n : string) (r : registration) : Prop :=
  match r with Relvec _ n' _ => n' = n | _ => False end.

#[global] Instance is_relvec_named_dec n r : Decision (is_relvec_named n r).
Proof. destruct r; simpl; apply _. Defined.

(** [f] is a lockstep instance of the registration [r] of [n]. *)
Definition relvec_instance_of (n : string) (f : FunctionProto)
    (r : registration) : Prop :=
  match r with
  | Relvec rettype' n' ps' =>
      n' = n ∧ Exists (λ i, relvec_instance rettype' n ps' i = Some f) [0; 1; 2]
  | _ => False
  end.

#[global] Instance relvec_instance_of_dec n f r :
  Decision (relvec_instance_of n f r).
Proof. destruct r; simpl; apply _. Defined.

(** What the loaded tables hold for one relational-vector
    registration. *)
Definition relvec_expanded (cat : catalogue) (rettype : jsval) (n : string)
    (ps : params) : Prop :=
  match mapM (relvec_instance rettype n ps) [0; 1; 2] with
  | Some expected =>
      NoDup (proto_signature <$> expected) ∧
      Forall (λ f, FunctionMap cat !! proto_signature f = Some f ∧
                   entries_with_signature (proto_signature f) cat = [f])
             expected ∧
      Forall (λ f, Exists (relvec_instance_of n f) function_registrations ∧
                   one_arity f)
             (entries_named n cat) ∧
      length (entries_named n cat) =
        3 * length (filter (is_relvec_named n) function_registrations)
  | None => False
  end.

#[global] Instance relvec_expanded_dec cat rettype n ps :
  Decision (relvec_expanded cat rettype n ps).
Proof.
  unfold relvec_expanded.
  destruct (mapM (relvec_instance rettype n ps) [0; 1; 2]); apply _.
Defined.

(** The same for all the relational-vector registrations of the
    module. *)
Definition relvec_registrations_expanded (cat : catalogue) : Prop :=
  Forall (λ r, match r with
               | Relvec rettype n ps => relvec_expanded cat rettype n ps
               | _ => True
               end) function_registrations.

#[global] Instance relvec_registrations_expanded_dec cat :
  Decision (relvec_registrations_expanded cat).
Proof. apply Forall_dec. intros [ | | | | | ]; apply _. Defined.

(* --------------------------------------------------------------------- *)
(* Stack lines                                                           *)
(* --------------------------------------------------------------------- *)

(** The characters of a string, and the decimal digits among them. *)
Definition chars (s : string) : list ascii := list_ascii_of_string s.

Definition digit (a : ascii) : Prop := App.is_digit a = true.


(** The editor position a frame line stands for: Chrome counts lines
    from one, so its line is moved up by one; Firefox lines and all
    columns are taken as they are. *)
Definition frame_at (l : string) (loc : App.location) : Prop :=
  (∃ d1 d2, App.chrome_frame l d1 d2 ∧
     loc = {| App.line := App.parseInt d1 - 1; App.column := App.parseInt d2 |}) ∨
  (∃ d1 d2, App.firefox_frame l d1 d2 ∧
     loc = {| App.line := App.parseInt d1; App.column := App.parseInt d2 |}).

(* --------------------------------------------------------------------- *)
(* Stored documents                                                      *)
(* --------------------------------------------------------------------- *)

(** The key a document has in the index on [modification_time]. *)
Definition modification_time (doc : IDB.document) : option IDB.key :=
  (doc !! "modification_time") ≫= IDB.to_key.

(** [not_older a b]: both documents carry a modification time, and
    that of [a] is not before that of [b]. *)
Definition not_older (a b : IDB.document) : Prop :=
  match modification_time a, modification_time b with
  | Some ka, Some kb => IDB.key_le kb ka
  | _, _ => False
  end.


(** The document has an entry in the index. *)
Definition indexed (doc : IDB.document) : Prop :=
  is_Some (modification_time doc).

#[global] Instance indexed_dec doc : Decision (indexed doc).
Proof. unfold indexed. apply _. Defined.

(* --------------------------------------------------------------------- *)
(* Consistency of the tables                                             *)
(* --------------------------------------------------------------------- *)

(** [Functions] holds no signature twice, and [FunctionMap] maps each
    signature to the entry of [Functions] that has it, and nothing
    else. *)
Definition functions_in_sync (c : catalogue) : Prop :=
  NoDup (proto_signature <$> Functions c) ∧
  ∀ sig f, FunctionMap c !! sig = Some f ↔
           f ∈ Functions c ∧ proto_signature f = sig.

(** The signature an operator is stored under: that of a binary
    operator when [lhs] and [rhs] are set, that of a unary one when
    [expr] is. *)
Definition op_signature (o : Operator) : option string :=
  match lhs o, rhs o, expr o with
  | Some l, Some r, None => Some (bin_signature (op o) l r)
  | None, None, Some e => Some (unary_signature (op o) e)
  | _, _, _ => None
  end.

(** Every entry of [OperatorMap] is an operator of [Operators] stored
    under its own signature, and every operator of [Operators] has its
    signature among the keys. *)
Definition operators_in_sync (c : catalogue) : Prop :=
  (∀ sig o, OperatorMap c !! sig = Some o →
            op_signature o = Some sig ∧ o ∈ Operators c) ∧
  (∀ o, o ∈ Operators c →
        ∃ sig, op_signature o = Some sig ∧ is_Some (OperatorMap c !! sig)).

(** [c'] has everything [c] has: the lists of [c] begin those of [c'],
    every function entry of [c] is kept as it is, and every operator
    signature of [c] is still a key. *)
Definition grown_from (c c' : catalogue) : Prop :=
  Functions c `prefix_of` Functions c' ∧
  FunctionMap c ⊆ FunctionMap c' ∧
  Operators c `prefix_of` Operators c' ∧
  dom (OperatorMap c) ⊆ dom (OperatorMap c').

(** A type slot of a generic registration: the marker [null] or the
    token of a builtin type. *)
Definition generic_slot (v : jsval) : Prop :=
  v = Null ∨ ∃ t, v = Tok t ∧ t ∈ btypetoks.

(** Keeping a property of the tables, as a relation between the tables
    before and after. *)
Definition keeps (I : catalogue → Prop) (c c' : catalogue) : Prop := I c → I c'.

(* --------------------------------------------------------------------- *)
(* Entries of the loaded operator table                                  *)
(* --------------------------------------------------------------------- *)

(** The types the scalar broadcasts are registered over, as written in
    the module ([mat3] twice, [mat4] not at all). *)
Definition float_broadcast_types : list token :=
  [T_VEC2; T_VEC3; T_VEC4; T_MAT2; T_MAT3].

(** The types of the arithmetic and the unary operators. *)
Definition numeric_types : list token :=
  [T_INT; T_FLOAT; T_VEC2; T_VEC3; T_VEC4; T_MAT2; T_MAT3; T_MAT4;
   T_IVEC2; T_IVEC3; T_IVEC4].

(** The entry under the signature of [l op r], if any. *)
Definition bin_entry (cat : catalogue) (o l r : token) : option Operator :=
  OperatorMap cat !! bin_signature o (Type_.new l) (Type_.new r).

(** The entry under the signature of [op e], if any. *)
Definition unary_entry (cat : catalogue) (o e : token) : option Operator :=
  OperatorMap cat !! unary_signature o (Type_.new e).

(** The operator a generator builds for a unary [op] on the type [e]. *)
Definition unary_operator (o e : token) : Operator :=
  {| op := o; ret := Type_.new e; lhs := None; rhs := None;
     expr := Some (Type_.new e) |}.

(** How often [Operators] holds an entry of [op] with these operands. *)
Definition pushed (cat : catalogue) (o l r : token) : nat :=
  length (filter (λ x, op x = o ∧ lhs x = Some (Type_.new l) ∧
                       rhs x = Some (Type_.new r)) (Operators cat)).

(** What the loaded table holds for the products, sums, differences and
    quotients of a [float] and a vector or matrix. *)
Definition float_broadcasts (cat : catalogue) : Prop :=
  Forall (λ o,
    Forall (λ t,
      is_Some (bin_entry cat o T_FLOAT t) ∧ is_Some (bin_entry cat o t T_FLOAT))
      float_broadcast_types ∧
    bin_entry cat o T_FLOAT T_MAT4 = None ∧
    bin_entry cat o T_MAT4 T_FLOAT = None ∧
    is_Some (bin_entry cat o T_MAT4 T_MAT4) ∧
    pushed cat o T_FLOAT T_MAT3 = 2 ∧ pushed cat o T_MAT3 T_FLOAT = 2 ∧
    pushed cat o T_FLOAT T_MAT2 = 1 ∧ pushed cat o T_MAT2 T_FLOAT = 1)
    arithmetic_ops.

#[global] Instance float_broadcasts_dec cat : Decision (float_broadcasts cat).
Proof. unfold float_broadcasts. apply _. Defined.

(** What the loaded table holds for the unary operators: [-], [--] and
    [++] on exactly the numeric types, [!] on exactly [bool], each
    returning the type of its operand. *)
Definition unary_entries (cat : catalogue) : Prop :=
  Forall (λ e,
    Forall (λ o,
      unary_entry cat o e =
        if bool_decide (e ∈ numeric_types) then Some (unary_operator o e)
        else None)
      [T_DASH; T_DEC_OP; T_INC_OP] ∧
    unary_entry cat T_BANG e =
      if bool_decide (e = T_BOOL) then Some (unary_operator T_BANG e) else None)
    all_tokens.

#[global] Instance unary_entries_dec cat : Decision (unary_entries cat).
Proof. unfold unary_entries. apply _. Defined.

(** The number of flags that are set. *)
Definition count_true (bs : list bool) : nat :=
  length (filter (λ b, b = true) bs).

(* --------------------------------------------------------------------- *)
(* Delayed saves                                                         *)
(* --------------------------------------------------------------------- *)

(** The callbacks that get saved over a sequence of events when [cur]
    is the callback waiting at its start: each elapsed timer saves with
    the callback of the latest change before it. *)
Fixpoint saves_of {callback : Type} (cur : option callback)
    (evs : list (Autosave.event callback)) : list callback :=
  match evs with
  | [] => []
  | Autosave.Changed cb _ :: evs' => saves_of (Some cb) evs'
  | Autosave.Elapsed _ :: evs' =>
      match cur with
      | Some cb => cb :: saves_of None evs'
      | None => saves_of None evs'
      end
  end.

(** The field and the pending timers agree: no timer is pending and
    the field is unset or zero, or the one pending timer is the one
    whose handle the field holds. *)
Definition timer_in_step {callback : Type} (st : Autosave.state callback)
  : Prop :=
  match Autosave.pending st with
  | [] => Autosave._save_timeout st = Autosave.Undefined ∨
          Autosave._save_timeout st = Autosave.Num 0
  | [(h, _)] => Autosave._save_timeout st = Autosave.Num h ∧ (0 < h)%Z
  | _ => False
  end.

(** The callback that is waiting for its timer. *)
Definition waiting {callback : Type} (st : Autosave.state callback)
  : option callback :=
  snd <$> head (Autosave.pending st).

(* ===================================================================== *)
(* Properties of the builtin types                                       *)
(* ===================================================================== *)

Lemma TypeMap_get_btypetoks (t : token) :
  TypeMap_get t = if bool_decide (t ∈ btypetoks) then Some (builtin_decl t) else None.
Proof. destruct t; vm_compute; reflexivity. Qed.

Lemma TypeMap_get_Some (t : token) (d : TypeDecl) :
  TypeMap_get t = Some d → d = builtin_decl t.
Proof.
  rewrite TypeMap_get_btypetoks. case_bool_decide; congruence.
Qed.

Lemma builtin_type_at_Some (v : jsval) (T : Type_.t) :
  builtin_type_at v = Some T → ∃ t, v = Tok t ∧ T = Type_.new t.
Proof.
  unfold builtin_type_at. destruct v as [| |t|s|d]; simpl; try discriminate.
  destruct (TypeMap_get t) as [d|] eqn:E; simpl; [|discriminate].
  intros [= <-]. apply TypeMap_get_Some in E as ->. eauto.
Qed.

(** C7. Every builtin type [new Type(tok)] has flags and a length that
    agree with its name: [float], [int] and [bool] are scalars of length
    1; [vecN], [ivecN] and [bvecN] are vectors of length [N]; [matN] is a
    matrix of length [N]; the element kind is float for [float], [vecN],
    [matN], int for [int], [ivecN], and bool for [bool], [bvecN]; and the
    types of the table carry, in order, the eighteen GLSL keywords as
    display names (pairwise distinct, equal to the text of the type's
    token). *)
Theorem Type_flags_agree_with_name (tok : token) :
  let T := Type_.new tok in
  ((named T "float" ∨ named T "int" ∨ named T "bool") →
     Type_.is_scalar T = true ∧ Type_.is_vec T = false ∧
     Type_.is_mat T = false ∧ Type_.length T = 1) ∧
  (∀ N, N ∈ [2; 3; 4] →
     (named T ("vec" +:+ arity_digit N) ∨ named T ("ivec" +:+ arity_digit N) ∨
      named T ("bvec" +:+ arity_digit N)) →
     Type_.is_vec T = true ∧ Type_.is_scalar T = false ∧
     Type_.is_mat T = false ∧ Type_.length T = N) ∧
  (∀ N, N ∈ [2; 3; 4] → named T ("mat" +:+ arity_digit N) →
     Type_.is_mat T = true ∧ Type_.is_scalar T = false ∧
     Type_.is_vec T = false ∧ Type_.length T = N) ∧
  (∀ N, N ∈ [2; 3; 4] →
     (named T "float" ∨ named T ("vec" +:+ arity_digit N) ∨
      named T ("mat" +:+ arity_digit N)) →
     Type_.is_float T = true ∧ Type_.is_int T = false ∧
     Type_.is_bool T = false) ∧
  (∀ N, N ∈ [2; 3; 4] →
     (named T "int" ∨ named T ("ivec" +:+ arity_digit N)) →
     Type_.is_int T = true ∧ Type_.is_float T = false ∧
     Type_.is_bool T = false) ∧
  (∀ N, N ∈ [2; 3; 4] →
     (named T "bool" ∨ named T ("bvec" +:+ arity_digit N)) →
     Type_.is_bool T = true ∧ Type_.is_float T = false ∧
     Type_.is_int T = false) ∧
  map (λ d, Type_.name (at_type (td_type d))) Types =
    Some <$> ["void"; "float"; "int"; "bool"; "vec2"; "vec3"; "vec4";
              "bvec2"; "bvec3"; "bvec4"; "ivec2"; "ivec3"; "ivec4";
              "mat2"; "mat3"; "mat4"; "sampler2D"; "samplerCube"] ∧
  NoDup (map (λ d, Type_.name (at_type (td_type d))) Types) ∧
  (∀ d, TypeMap_get tok = Some d →
        at_type (td_type d) = T ∧
        Type_.name T = Some (tok_text (at_token (td_type d)))).
Proof.
  intros T; subst T. unfold named.
  repeat split; intros.
  1-21: try match goal with
            | HN : _ ∈ [2; 3; 4] |- _ =>
                rewrite !elem_of_cons, elem_of_nil in HN;
                destruct HN as [->|[->|[->|[]]]]
            end;
        destruct tok; simpl in *; try reflexivity; exfalso;
        intuition discriminate.
  - vm_compute. repeat constructor; rewrite ?elem_of_cons, ?elem_of_nil;
      intuition discriminate.
  - match goal with H : TypeMap_get _ = _ |- _ =>
      apply TypeMap_get_Some in H as -> end. reflexivity.
  - match goal with H : TypeMap_get _ = _ |- _ =>
      rewrite TypeMap_get_btypetoks in H; destruct tok; vm_compute in H;
      try discriminate; injection H as <- end; reflexivity.
Qed.

(* ===================================================================== *)
(* Properties of the function registration                               *)
(* ===================================================================== *)

(** A loop preserves every reflexive and transitive relation that its
    body preserves. *)
Lemma for_each_preserves {A S : Type} (R : S → S → Prop)
    `{!Reflexive R, !Transitive R} (body : A → S → option S) (l : list A) :
  (∀ x s s', x ∈ l → body x s = Some s' → R s s') →
  ∀ s s', for_each body l s = Some s' → R s s'.
Proof.
  induction l as [|x l IH]; simpl; intros Hb s s' H.
  - by injection H as <-.
  - destruct (body x s) as [s1|] eqn:E; simpl in H; [|discriminate].
    trans s1.
    + eapply Hb; [left|done].
    + eapply IH; [|done]. intros y t t' Hy. apply Hb. by right.
Qed.

(** The two outcomes of [define_builtin_function]: the signature is
    already a key and nothing changes, or it is new and the prototype is
    pushed and stored. *)
Lemma define_builtin_function_spec rettype n ps c r c' :
  define_builtin_function rettype n ps c = Some (r, c') →
  ∃ h, make_header rettype n ps = Some h ∧
    ((is_Some (FunctionMap c !! signature h) ∧ r = None ∧ c' = c) ∨
     (FunctionMap c !! signature h = None ∧ r = Some (make_proto h) ∧
      Functions c' = Functions c ++ [make_proto h] ∧
      FunctionMap c' = <[signature h := make_proto h]> (FunctionMap c) ∧
      Operators c' = Operators c ∧ OperatorMap c' = OperatorMap c)).
Proof.
  unfold define_builtin_function. intros H.
  destruct (make_header rettype n ps) as [h|]; simpl in H; [|discriminate].
  exists h. split; [done|]. case_decide as Hin.
  - injection H as <- <-. by left.
  - injection H as <- <-. right. simpl.
    apply eq_None_not_Some in Hin. done.
Qed.

#[local] Instance same_operators_refl : Reflexive same_operators.
Proof. by intros c. Qed.

#[local] Instance same_operators_trans : Transitive same_operators.
Proof. intros c1 c2 c3 [H1 H2] [H3 H4]. split; congruence. Qed.

Lemma define_builtin_function_same_operators rettype n ps c r c' :
  define_builtin_function rettype n ps c = Some (r, c') → same_operators c c'.
Proof.
  intros H. apply define_builtin_function_spec in H
    as (h & _ & [(_ & _ & ->)|(_ & _ & _ & _ & H1 & H2)]); by split.
Qed.

Lemma snd_define_builtin_function_same_operators rettype n ps c c' :
  snd <$> define_builtin_function rettype n ps c = Some c' →
  same_operators c c'.
Proof.
  destruct (define_builtin_function rettype n ps c) as [[r c1]|] eqn:E;
    simpl; [|discriminate].
  intros [= <-]. by eapply define_builtin_function_same_operators.
Qed.

Lemma define_builtin_function_gen_same_operators gentypes rettype n ps c c' :
  define_builtin_function_gen gentypes rettype n ps c = Some c' →
  same_operators c c'.
Proof.
  unfold define_builtin_function_gen.
  apply for_each_preserves; [apply _..|].
  intros g s s' _. apply snd_define_builtin_function_same_operators.
Qed.

Lemma define_builtin_relvec_function_same_operators rettype n ps c c' :
  define_builtin_relvec_function rettype n ps c = Some c' →
  same_operators c c'.
Proof.
  unfold define_builtin_relvec_function.
  apply for_each_preserves; [apply _..|].
  intros g s s' _. apply snd_define_builtin_function_same_operators.
Qed.

(* ===================================================================== *)
(* Properties of the operator generators                                 *)
(* ===================================================================== *)

Lemma type_or_gen_Some (x : jsval) (g : token) (T : Type_.t) :
  type_or_gen x g = Some T →
  T = Type_.new (match x with Tok t => t | _ => g end).
Proof.
  destruct x as [| |t|s|d]; simpl; intros H;
    apply builtin_type_at_Some in H as (t' & Ht & ->); congruence.
Qed.

(** Nested loops whose body pushes exactly one operator: the operators
    pushed by the whole run, in order, one per (operator, type) pair. *)
Section OperatorLoops.
Variable step : token → token → catalogue → option catalogue.
Variable P : token → token → Operator → Prop.
Hypothesis step_pushes :
  ∀ op g c c', step op g c = Some c' →
    ∃ o, Operators c' = Operators c ++ [o] ∧ P op g o ∧
         Functions c' = Functions c ∧ FunctionMap c' = FunctionMap c.

Lemma inner_loop_pushes (op : token) (gens : list token) :
  ∀ c c', for_each (step op) gens c = Some c' →
    ∃ news, Operators c' = Operators c ++ news ∧
            Forall2 (λ o g, P op g o) news gens ∧
            Functions c' = Functions c ∧ FunctionMap c' = FunctionMap c.
Proof.
  induction gens as [|g gens IH]; simpl; intros c c' H.
  - injection H as <-. exists []. by rewrite app_nil_r.
  - destruct (step op g c) as [c1|] eqn:E1; simpl in H; [|discriminate].
    apply step_pushes in E1 as (o & Ho & HP & HF & HM).
    apply IH in H as (news & Hn & Hall & HF' & HM').
    exists (o :: news). rewrite Hn, Ho, <- app_assoc. simpl.
    repeat split; [by constructor|congruence|congruence].
Qed.

Lemma nested_loop_pushes (ops gens : list token) :
  ∀ c c', for_each (λ op, for_each (step op) gens) ops c = Some c' →
    ∃ news, Operators c' = Operators c ++ news ∧
            Forall2 (λ o og, P og.1 og.2 o) news (list_prod ops gens) ∧
            Functions c' = Functions c ∧ FunctionMap c' = FunctionMap c.
Proof.
  induction ops as [|op ops IH]; simpl; intros c c' H.
  - injection H as <-. exists []. by rewrite app_nil_r.
  - destruct (for_each (step op) gens c) as [c1|] eqn:E1; simpl in H;
      [|discriminate].
    apply inner_loop_pushes in E1 as (n1 & Hn1 & Hall1 & HF1 & HM1).
    apply IH in H as (n2 & Hn2 & Hall2 & HF2 & HM2).
    exists (n1 ++ n2). rewrite Hn2, Hn1, <- app_assoc.
    repeat split; [|congruence|congruence].
    apply Forall2_app; [|done].
    apply Forall2_fmap_r. eapply Forall2_impl; [exact Hall1|]. done.
Qed.
End OperatorLoops.

(** What one pass of the binary generator's inner loop stores. *)
Lemma bin_operator_step_spec rettype o' l r g c c' :
  bin_operator_step rettype o' l r g c = Some c' →
  ∃ o_ret o_lhs o_rhs,
    type_or_gen rettype g = Some o_ret ∧
    type_or_gen l g = Some o_lhs ∧
    type_or_gen r g = Some o_rhs ∧
    c' = add_operator (bin_signature o' o_lhs o_rhs)
           {| op := o'; ret := o_ret; lhs := Some o_lhs; rhs := Some o_rhs;
              expr := None |} c.
Proof.
  unfold bin_operator_step. intros H.
  destruct (type_or_gen rettype g) as [o_ret|]; simpl in H; [|discriminate].
  destruct (type_or_gen l g) as [o_lhs|]; simpl in H; [|discriminate].
  destruct (type_or_gen r g) as [o_rhs|]; simpl in H; [|discriminate].
  injection H as <-. eauto 10.
Qed.

Lemma unary_operator_step_spec rettype o' e g c c' :
  unary_operator_step rettype o' e g c = Some c' →
  ∃ o_ret o_expr,
    type_or_gen rettype g = Some o_ret ∧
    type_or_gen e g = Some o_expr ∧
    c' = add_operator (unary_signature o' o_expr)
           {| op := o'; ret := o_ret; lhs := None; rhs := None;
              expr := Some o_expr |} c.
Proof.
  unfold unary_operator_step. intros H.
  destruct (type_or_gen rettype g) as [o_ret|]; simpl in H; [|discriminate].
  destruct (type_or_gen e g) as [o_expr|]; simpl in H; [|discriminate].
  injection H as <-. eauto 10.
Qed.

Lemma bin_operator_gen_pushes rettype ops l r gens c c' :
  define_builtin_bin_operator_gen rettype ops l r gens c = Some c' →
  ∃ news, Operators c' = Operators c ++ news ∧
          Forall2 (λ o og, generated_as rettype og.1 og.2 o) news
                  (list_prod ops gens) ∧
          Functions c' = Functions c ∧ FunctionMap c' = FunctionMap c.
Proof.
  apply (nested_loop_pushes (λ op, bin_operator_step rettype op l r)
           (generated_as rettype)).
  intros o' g c0 c1 H.
  apply bin_operator_step_spec in H as (o_ret & o_lhs & o_rhs & Hr & _ & _ & ->).
  apply type_or_gen_Some in Hr as ->.
  eexists. repeat split.
Qed.

Lemma unary_operator_gen_pushes rettype ops e gens c c' :
  define_builtin_unary_operator_gen rettype ops e gens c = Some c' →
  ∃ news, Operators c' = Operators c ++ news ∧
          Forall2 (λ o og, generated_as rettype og.1 og.2 o) news
                  (list_prod ops gens) ∧
          Functions c' = Functions c ∧ FunctionMap c' = FunctionMap c.
Proof.
  apply (nested_loop_pushes (λ op, unary_operator_step rettype op e)
           (generated_as rettype)).
  intros o' g c0 c1 H.
  apply unary_operator_step_spec in H as (o_ret & o_expr & Hr & _ & ->).
  apply type_or_gen_Some in Hr as ->.
  eexists. repeat split.
Qed.



Lemma when_loaded_impl (P Q : catalogue → Prop) :
  (∀ cat, builtins = Some cat → P cat → Q cat) → when_loaded P → when_loaded Q.
Proof. unfold when_loaded. destruct builtins; [|done]. eauto. Qed.

Lemma builtins_loads : is_Some builtins.
Proof.
  assert (H : holds_when_loaded (λ _, true)) by (vm_compute; reflexivity).
  unfold holds_when_loaded, when_loaded in H. destruct builtins; [eauto|done].
Qed.




(* ===================================================================== *)
(* Matrix and vector products                                            *)
(* ===================================================================== *)

(** C1 (as the code has it). Both [matN * vecN] and [vecN * matN] are
    registered for [N] in 2..4, under the keys [*(matN,vecN)] and
    [*(vecN,matN)].  The first returns [vecN]; the second is generated
    from the operand [matN] with no explicit return type and so returns
    [matN], not [vecN]. *)
Theorem star_matrix_vector_entries :
  when_loaded (λ cat,
    OperatorMap cat !! "*(mat3,vec3)" =
      OperatorMap cat !! bin_signature T_STAR (Type_.new T_MAT3) (Type_.new T_VEC3) ∧
    OperatorMap cat !! "*(vec3,mat3)" =
      OperatorMap cat !! bin_signature T_STAR (Type_.new T_VEC3) (Type_.new T_MAT3) ∧
    ∀ m v, (m, v) ∈ matrix_vector_pairs →
      star_entry cat m v v ∧ star_entry cat v m m ∧ ¬ star_entry cat v m v).
Proof.
  assert (H : holds_when_loaded (λ cat,
    bool_decide (Forall (λ mv : token * token,
        star_entry cat mv.1 mv.2 mv.2 ∧ star_entry cat mv.2 mv.1 mv.1 ∧
        ¬ star_entry cat mv.2 mv.1 mv.2) matrix_vector_pairs)))
    by (vm_compute; reflexivity).
  revert H. apply when_loaded_impl. intros cat _ H.
  apply bool_decide_eq_true in H. rewrite Forall_forall in H.
  split; [reflexivity|]. split; [reflexivity|].
  intros m v Hmv. apply (H (m, v) Hmv).
Qed.

(* ===================================================================== *)
(* Registering a signature twice                                         *)
(* ===================================================================== *)






(* ===================================================================== *)
(* Generic expansion of functions                                        *)
(* ===================================================================== *)

Lemma all_tokens_complete (t : token) : t ∈ all_tokens.
Proof. destruct t; apply (bool_decide_unpack _); exact I. Qed.

Lemma gentype_registrations_expanded_loaded :
  holds_when_loaded (λ cat, bool_decide (gentype_registrations_expanded cat)).
Proof. vm_compute. reflexivity. Qed.

(** C3. For every function the module registers through the gentype
    mechanism, the loaded function table holds, for each of [float],
    [vec2], [vec3] and [vec4], exactly one entry under the signature of
    the instance in which that type replaces the generic marker in every
    generic parameter slot and in a generic return type, and that entry
    is this instance; every entry declared under the function's name is
    such an instance of a gentype registration and has only parameter
    types among the four; and for a type that is not one of the four
    there is no entry under the instance's signature. *)
Theorem gentype_expansion_complete (rettype : jsval) (n : string) (ps : params) :
  Gentype rettype n ps ∈ function_registrations →
  when_loaded (λ cat,
    (∀ g, g ∈ gentypes →
       let f := gentype_instance rettype n ps g in
       FunctionMap cat !! proto_signature f = Some f ∧
       entries_with_signature (proto_signature f) cat = [f]) ∧
    (∀ f, f ∈ Functions cat → proto_name f = n →
       (∃ rettype' ps' g,
          Gentype rettype' n ps' ∈ function_registrations ∧ g ∈ gentypes ∧
          f = gentype_instance rettype' n ps' g) ∧
       (∀ T, T ∈ proto_param_types f → ∃ g, g ∈ gentypes ∧ T = Type_.new g)) ∧
    (∀ t, t ∉ gentypes →
       FunctionMap cat !! proto_signature (gentype_instance rettype n ps t)
         = None)).
Proof.
  intros Hreg.
  generalize gentype_registrations_expanded_loaded.
  apply when_loaded_impl. intros cat _ H.
  apply bool_decide_eq_true in H.
  unfold gentype_registrations_expanded in H. rewrite Forall_forall in H.
  specialize (H _ Hreg). simpl in H. destruct H as (H1 & H2 & H3).
  rewrite Forall_forall in H1. rewrite Forall_forall in H2.
  rewrite Forall_forall in H3.
  split; [exact H1|]. split.
  - intros f Hf Hn.
    assert (Hin : f ∈ entries_named n cat)
      by (apply list_elem_of_filter; done).
    destruct (H2 f Hin) as [Hex Hty]. split.
    + apply Exists_exists in Hex as (r & Hr & Hr').
      destruct r as [ |rettype' n' ps'| | | | ]; try done.
      destruct Hr' as [-> Hg]. apply Exists_exists in Hg as (g & Hg & ->).
      eauto 10.
    + intros T HT. rewrite Forall_forall in Hty.
      apply Hty, Exists_exists in HT. exact HT.
  - intros t Ht. destruct (H3 t (all_tokens_complete t)); done.
Qed.

(** The registration of [sin]: the table holds [sin(vec2)], and holds no
    [sin(mat2)]. *)
Lemma gentype_expansion_complete_witness :
  when_loaded (λ cat,
    FunctionMap cat !! "sin(vec2)" =
      Some (builtin_proto T_VEC2 "sin" [(T_VEC2, "angle")]) ∧
    FunctionMap cat !! "sin(mat2)" = None).
Proof.
  assert (Hreg : Gentype Null "sin" [(Null, "angle")] ∈ function_registrations)
    by (apply (bool_decide_unpack _); vm_compute; exact I).
  generalize (gentype_expansion_complete Null "sin" [(Null, "angle")] Hreg).
  apply when_loaded_impl. intros cat _ (H1 & _ & H3). split.
  - apply (H1 T_VEC2). apply (bool_decide_unpack _); vm_compute; exact I.
  - apply (H3 T_MAT2). apply (bool_decide_unpack _); vm_compute; exact I.
Defined.

(* ===================================================================== *)
(* Lockstep expansion over the relational-vector families                *)
(* ===================================================================== *)

Lemma relvec_registrations_expanded_loaded :
  holds_when_loaded (λ cat, bool_decide (relvec_registrations_expanded cat)).
Proof. vm_compute. reflexivity. Qed.

Lemma mapM_three {A B : Type} (f : A → option B) (a b c : A) (l : list B) :
  mapM f [a; b; c] = Some l →
  ∃ x y z, f a = Some x ∧ f b = Some y ∧ f c = Some z ∧ l = [x; y; z].
Proof.
  simpl. destruct (f a) as [x|], (f b) as [y|], (f c) as [z|]; simpl;
    try discriminate.
  intros [= <-]. eauto 10.
Qed.

(** C4. For every function the module registers over the
    relational-vector families, the three lockstep instances (index 0
    with the two-component member of each family, index 1 with the
    three-component one, index 2 with the four-component one) have three
    distinct signatures and each is stored exactly once in the loaded
    function table; every entry declared under the function's name is
    such a lockstep instance of a registration of that name, so that all
    its vector types have one arity; and the name has exactly three
    entries per registration. *)
Theorem relvec_expansion_lockstep (rettype : jsval) (n : string) (ps : params) :
  Relvec rettype n ps ∈ function_registrations →
  when_loaded (λ cat,
    ∃ e0 e1 e2,
      relvec_instance rettype n ps 0 = Some e0 ∧
      relvec_instance rettype n ps 1 = Some e1 ∧
      relvec_instance rettype n ps 2 = Some e2 ∧
      NoDup (proto_signature <$> [e0; e1; e2]) ∧
      (∀ f, f ∈ [e0; e1; e2] →
         FunctionMap cat !! proto_signature f = Some f ∧
         entries_with_signature (proto_signature f) cat = [f]) ∧
      (∀ f, f ∈ Functions cat → proto_name f = n →
         (∃ rettype' ps' i,
            Relvec rettype' n ps' ∈ function_registrations ∧ i ∈ [0; 1; 2] ∧
            relvec_instance rettype' n ps' i = Some f) ∧
         one_arity f) ∧
      length (entries_named n cat) =
        3 * length (filter (is_relvec_named n) function_registrations)).
Proof.
  intros Hreg.
  generalize relvec_registrations_expanded_loaded.
  apply when_loaded_impl. intros cat _ H.
  apply bool_decide_eq_true in H.
  unfold relvec_registrations_expanded in H. rewrite Forall_forall in H.
  specialize (H _ Hreg). simpl in H. unfold relvec_expanded in H.
  destruct (mapM (relvec_instance rettype n ps) [0; 1; 2]) as [expected|] eqn:E;
    [|done].
  apply mapM_three in E as (e0 & e1 & e2 & E0 & E1 & E2 & ->).
  destruct H as (Hnd & Hall & Hnamed & Hlen).
  rewrite Forall_forall in Hall. rewrite Forall_forall in Hnamed.
  exists e0, e1, e2. do 5 (split; [done|]). split; [|done].
  intros f Hf Hn.
  assert (Hin : f ∈ entries_named n cat) by (apply list_elem_of_filter; done).
  destruct (Hnamed f Hin) as [Hex Hone]. split; [|done].
  apply Exists_exists in Hex as (r & Hr & Hr').
  destruct r as [ | | |rettype' n' ps'| | ]; try done.
  destruct Hr' as [-> Hi]. apply Exists_exists in Hi as (i & Hi & Hf').
  eauto 10.
Qed.

(** The first registration of [lessThan]: the table holds
    [lessThan(vec3,vec3)] returning [bvec3], and six entries named
    [lessThan] for its two registrations. *)
Lemma relvec_expansion_lockstep_witness :
  when_loaded (λ cat,
    FunctionMap cat !! "lessThan(vec3,vec3)" =
      Some (builtin_proto T_BVEC3 "lessThan" [(T_VEC3, "x"); (T_VEC3, "y")]) ∧
    length (entries_named "lessThan" cat) = 6).
Proof.
  assert (Hreg : Relvec (Str "bvec") "lessThan" [(Str "vec", "x"); (Str "vec", "y")]
                   ∈ function_registrations)
    by (apply (bool_decide_unpack _); vm_compute; exact I).
  generalize (relvec_expansion_lockstep _ _ _ Hreg).
  apply when_loaded_impl.
  intros cat _ (e0 & e1 & e2 & _ & E1 & _ & _ & Hall & _ & Hlen).
  split; [|exact Hlen].
  assert (He1 : e1 = builtin_proto T_BVEC3 "lessThan"
                         [(T_VEC3, "x"); (T_VEC3, "y")])
    by (vm_compute in E1; injection E1 as <-; reflexivity).
  subst e1.
  exact (proj1 (Hall _ (list_elem_of_further _ _ _ (list_elem_of_here _ _)))).
Defined.

(* ===================================================================== *)
(* Properties of the error location                                      *)
(* ===================================================================== *)

Lemma append_nil_l (s : string) : EmptyString +:+ s = s.
Proof. reflexivity. Qed.

Lemma append_cons (a : ascii) (s t : string) :
  String a s +:+ t = String a (s +:+ t).
Proof. reflexivity. Qed.

Lemma append_assoc (a b c : string) : (a +:+ b) +:+ c = a +:+ (b +:+ c).
Proof.
  induction a as [|x a IH]; [done|]. rewrite !append_cons. by f_equal.
Qed.

Lemma append_nil_r (a : string) : a +:+ EmptyString = a.
Proof. induction a as [|x a IH]; [done|]. rewrite append_cons. by f_equal. Qed.

Lemma strip_prefix_Some (l s s' : string) :
  App.strip_prefix l s = Some s' ↔ s = l +:+ s'.
Proof.
  revert s. induction l as [|a l IH]; intros s; simpl.
  - rewrite append_nil_l. split; [by intros [= ->]|by intros ->].
  - rewrite append_cons. destruct s as [|b s]; [split; discriminate|].
    destruct (Ascii.eqb_spec a b) as [->|Hne].
    + rewrite IH. split; [by intros ->|by intros [= ->]].
    + split; [discriminate|]. intros [= -> _]. done.
Qed.

Lemma digit_string_cons (a : ascii) (d : string) :
  App.is_digit a = true → App.all_digits d = true →
  App.digit_string (String a d).
Proof. intros Ha Hd. split; [discriminate|]. simpl. by rewrite Ha, Hd. Qed.

Lemma digits_then_sound {R : Type} (k : string → string → option R)
    (s acc : string) (r : R) :
  App.digits_then k acc s = Some r →
  ∃ d s', App.digit_string d ∧ s = d +:+ s' ∧ k (acc +:+ d) s' = Some r.
Proof.
  revert acc. induction s as [|a s IH]; intros acc; simpl; [discriminate|].
  destruct (App.is_digit a) eqn:Ha; [|discriminate].
  destruct (App.digits_then k (acc +:+ String a EmptyString) s) as [r'|] eqn:E.
  - intros [= ->]. apply IH in E as (d & s' & [_ Hd] & -> & Hk).
    exists (String a d), s'. split; [by apply digit_string_cons|].
    split; [done|]. by rewrite append_assoc in Hk.
  - intros Hk. exists (String a EmptyString), s.
    split; [by apply digit_string_cons|]. done.
Qed.

Lemma digits_then_complete {R : Type} (k : string → string → option R)
    (d s' acc : string) :
  App.digit_string d → is_Some (k (acc +:+ d) s') →
  is_Some (App.digits_then k acc (d +:+ s')).
Proof.
  intros [Hne Hd]. revert acc Hne Hd.
  induction d as [|a d IH]; intros acc Hne Hd Hk; [done|].
  simpl in Hd. apply andb_prop in Hd as [Ha Hd].
  rewrite append_cons. simpl. rewrite Ha.
  destruct d as [|b d].
  - rewrite append_nil_l. destruct (App.digits_then k _ s'); [eauto|done].
  - assert (H : is_Some (App.digits_then k (acc +:+ String a EmptyString)
                           (String b d +:+ s'))).
    { apply IH; [done|done|]. by rewrite append_assoc. }
    destruct H as [r ->]. eauto.
Qed.

Lemma match_here_sound (re : App.regexp) (s : string) (caps : list string) :
  App.match_here re s = Some caps → App.matches re s caps.
Proof.
  revert s caps. induction re as [|[l|] re IH]; intros s caps; simpl.
  - destruct s; [|discriminate]. intros [= <-]. constructor.
  - destruct (App.strip_prefix l s) as [s'|] eqn:E; simpl; [|discriminate].
    apply strip_prefix_Some in E as ->. intros H. constructor. by apply IH.
  - intros H. apply digits_then_sound in H as (d & s' & Hd & -> & Hk).
    destruct (App.match_here re s') as [caps'|] eqn:E; simpl in Hk;
      [|discriminate].
    injection Hk as <-. constructor; [done|]. by apply IH.
Qed.

Lemma match_here_complete (re : App.regexp) (s : string) (caps : list string) :
  App.matches re s caps → is_Some (App.match_here re s).
Proof.
  induction 1 as [|l re s caps _ IH|d re s caps Hd _ IH]; simpl.
  - eauto.
  - assert (E : App.strip_prefix l (l +:+ s) = Some s)
      by (by apply strip_prefix_Some).
    by rewrite E.
  - apply digits_then_complete; [done|].
    destruct IH as [caps' ->]. simpl. eauto.
Qed.

Lemma regexp_match_sound (re : App.regexp) (s : string) (caps : list string) :
  App.regexp_match re s = Some caps →
  ∃ pre rest, s = pre +:+ rest ∧ App.matches re rest caps.
Proof.
  induction s as [|a s IH]; simpl.
  - destruct (App.match_here re EmptyString) as [c|] eqn:E; [|discriminate].
    intros [= ->]. exists EmptyString, EmptyString.
    split; [done|]. by apply match_here_sound.
  - destruct (App.match_here re (String a s)) as [c|] eqn:E.
    + intros [= ->]. exists EmptyString, (String a s).
      split; [done|]. by apply match_here_sound.
    + intros H. apply IH in H as (pre & rest & -> & Hm).
      by exists (String a pre), rest.
Qed.

Lemma regexp_match_complete (re : App.regexp) (pre rest : string)
    (caps : list string) :
  App.matches re rest caps → is_Some (App.regexp_match re (pre +:+ rest)).
Proof.
  intros Hm. induction pre as [|a pre IH].
  - rewrite append_nil_l. apply match_here_complete in Hm as [c Hc].
    destruct rest; simpl; rewrite Hc; eauto.
  - rewrite append_cons. simpl.
    destruct (App.match_here re (String a (pre +:+ rest))); eauto.
Qed.

(** The two expressions denote the two shapes. *)
Lemma matches_anon (rest : string) (caps : list string) :
  App.matches App.anon rest caps ↔
  ∃ d1 d2, caps = [d1; d2] ∧ App.digit_string d1 ∧ App.digit_string d2 ∧
           rest = ", <anonymous>:" +:+ d1 +:+ ":" +:+ d2 +:+ ")".
Proof.
  split.
  - intros H. unfold App.anon in H.
    repeat match goal with
           | H : App.matches (_ :: _) _ _ |- _ => inversion H; clear H; subst
           | H : App.matches [] _ _ |- _ => inversion H; clear H; subst
           end.
    eexists _, _. split; [done|]. split; [done|]. split; [done|].
    by rewrite append_nil_r.
  - intros (d1 & d2 & -> & H1 & H2 & ->).
    rewrite <- (append_nil_r ")"). unfold App.anon.
    repeat (constructor; try done).
Qed.

Lemma matches_func (rest : string) (caps : list string) :
  App.matches App.func rest caps ↔
  ∃ d1 d2, caps = [d1; d2] ∧ App.digit_string d1 ∧ App.digit_string d2 ∧
           rest = "> Function:" +:+ d1 +:+ ":" +:+ d2.
Proof.
  split.
  - intros H. unfold App.func in H.
    repeat match goal with
           | H : App.matches (_ :: _) _ _ |- _ => inversion H; clear H; subst
           | H : App.matches [] _ _ |- _ => inversion H; clear H; subst
           end.
    eexists _, _. split; [done|]. split; [done|]. split; [done|].
    by rewrite append_nil_r.
  - intros (d1 & d2 & -> & H1 & H2 & ->).
    rewrite <- (append_nil_r d2) at 1. unfold App.func.
    repeat (constructor; try done).
Qed.

Lemma regexp_match_anon_Some (l : string) (m : list string) :
  App.regexp_match App.anon l = Some m →
  ∃ d1 d2, m = [d1; d2] ∧ App.chrome_frame l d1 d2.
Proof.
  intros H. apply regexp_match_sound in H as (pre & rest & -> & H).
  apply matches_anon in H as (d1 & d2 & -> & H1 & H2 & ->).
  exists d1, d2. split; [done|]. split; [done|]. split; [done|]. by exists pre.
Qed.

Lemma regexp_match_anon_None (l : string) :
  App.regexp_match App.anon l = None ↔ ∀ d1 d2, ¬ App.chrome_frame l d1 d2.
Proof.
  split.
  - intros H d1 d2 (H1 & H2 & pre & ->).
    assert (Hs : is_Some (App.regexp_match App.anon
              (pre +:+ ", <anonymous>:" +:+ d1 +:+ ":" +:+ d2 +:+ ")"))).
    { eapply regexp_match_complete, matches_anon. eauto 10. }
    rewrite H in Hs. by destruct Hs.
  - intros H. destruct (App.regexp_match App.anon l) as [m|] eqn:E; [|done].
    apply regexp_match_anon_Some in E as (d1 & d2 & _ & Hf). by destruct (H d1 d2).
Qed.

Lemma regexp_match_func_Some (l : string) (m : list string) :
  App.regexp_match App.func l = Some m →
  ∃ d1 d2, m = [d1; d2] ∧ App.firefox_frame l d1 d2.
Proof.
  intros H. apply regexp_match_sound in H as (pre & rest & -> & H).
  apply matches_func in H as (d1 & d2 & -> & H1 & H2 & ->).
  exists d1, d2. split; [done|]. split; [done|]. split; [done|]. by exists pre.
Qed.

Lemma regexp_match_func_None (l : string) :
  App.regexp_match App.func l = None ↔ ∀ d1 d2, ¬ App.firefox_frame l d1 d2.
Proof.
  split.
  - intros H d1 d2 (H1 & H2 & pre & ->).
    assert (Hs : is_Some (App.regexp_match App.func
              (pre +:+ "> Function:" +:+ d1 +:+ ":" +:+ d2))).
    { eapply regexp_match_complete, matches_func. eauto 10. }
    rewrite H in Hs. by destruct Hs.
  - intros H. destruct (App.regexp_match App.func l) as [m|] eqn:E; [|done].
    apply regexp_match_func_Some in E as (d1 & d2 & _ & Hf). by destruct (H d1 d2).
Qed.

(** ** The groups of a frame line are determined by the line *)

Lemma chars_app (a b : string) : chars (a +:+ b) = chars a ++ chars b.
Proof.
  induction a as [|x a IH]; [done|]. rewrite append_cons. simpl. by f_equal.
Qed.

Lemma chars_inj (a b : string) : chars a = chars b → a = b.
Proof.
  intros H. rewrite <- (string_of_list_ascii_of_string a),
    <- (string_of_list_ascii_of_string b). unfold chars in H. by rewrite H.
Qed.

Lemma digit_string_chars (d : string) :
  App.digit_string d → Forall digit (chars d) ∧ chars d ≠ [].
Proof.
  intros [Hne Hd]. split.
  - clear Hne. induction d as [|a d IH]; [constructor|].
    simpl in Hd. apply andb_prop in Hd as [Ha Hd]. constructor; auto.
  - by destruct d.
Qed.

Lemma digits_prefix_unique (d d' r r' : list ascii) (c c' : ascii) :
  Forall digit d → Forall digit d' → ¬ digit c → ¬ digit c' →
  d ++ c :: r = d' ++ c' :: r' → d = d' ∧ r = r'.
Proof.
  intros Hd. revert d'. induction Hd as [|a d Ha Hd IH]; intros d' Hd' Hc Hc'.
  - destruct Hd' as [|a' d' Ha' Hd']; simpl.
    + by intros [= _ ->].
    + intros [= -> _]. done.
  - destruct Hd' as [|a' d' Ha' Hd']; simpl.
    + intros [= -> _]. done.
    + intros [= -> H]. apply IH in H as [-> ->]; done.
Qed.

Lemma digits_suffix_unique (x x' d d' : list ascii) (c c' : ascii) :
  Forall digit d → Forall digit d' → ¬ digit c → ¬ digit c' →
  x ++ c :: d = x' ++ c' :: d' → x = x' ∧ d = d'.
Proof.
  intros Hd Hd' Hc Hc' H.
  apply (f_equal reverse) in H.
  rewrite !reverse_app, !reverse_cons, <- !app_assoc in H. simpl in H.
  apply digits_prefix_unique in H as [H1 H2];
    [|by apply Forall_reverse..|done|done].
  split; by apply (inj reverse).
Qed.

Lemma two_groups_unique (x x' lit L d1 d2 e1 e2 : list ascii) (c1 c2 : ascii) :
  lit = L ++ [c1] → ¬ digit c1 → ¬ digit c2 →
  Forall digit d1 → Forall digit d2 → Forall digit e1 → Forall digit e2 →
  x ++ lit ++ d1 ++ [c2] ++ d2 = x' ++ lit ++ e1 ++ [c2] ++ e2 →
  d1 = e1 ∧ d2 = e2.
Proof.
  intros -> Hc1 Hc2 Hd1 Hd2 He1 He2 H.
  assert (H' : (x ++ L ++ c1 :: d1) ++ c2 :: d2 =
               (x' ++ L ++ c1 :: e1) ++ c2 :: e2)
    by (by rewrite <- !app_assoc in *).
  apply digits_suffix_unique in H' as [H' ->]; [|done..].
  split; [|done].
  rewrite !app_assoc in H'.
  by apply digits_suffix_unique in H' as [_ ->].
Qed.

Lemma chrome_frame_unique (l d1 d2 e1 e2 : string) :
  App.chrome_frame l d1 d2 → App.chrome_frame l e1 e2 → d1 = e1 ∧ d2 = e2.
Proof.
  intros (Hd1 & Hd2 & pre & ->) (He1 & He2 & pre' & H).
  apply digit_string_chars in Hd1 as [Hd1 _], Hd2 as [Hd2 _],
    He1 as [He1 _], He2 as [He2 _].
  apply (f_equal chars) in H. rewrite !chars_app in H.
  rewrite !app_assoc in H. apply app_inj_tail in H as [H _].
  rewrite <- !app_assoc in H.
  apply (two_groups_unique _ _ _ (chars ", <anonymous>") _ _ _ _ ":"%char)
    in H as [H1%chars_inj H2%chars_inj]; done.
Qed.

Lemma firefox_frame_unique (l d1 d2 e1 e2 : string) :
  App.firefox_frame l d1 d2 → App.firefox_frame l e1 e2 → d1 = e1 ∧ d2 = e2.
Proof.
  intros (Hd1 & Hd2 & pre & ->) (He1 & He2 & pre' & H).
  apply digit_string_chars in Hd1 as [Hd1 _], Hd2 as [Hd2 _],
    He1 as [He1 _], He2 as [He2 _].
  apply (f_equal chars) in H. rewrite !chars_app in H.
  apply (two_groups_unique _ _ _ (chars "> Function") _ _ _ _ ":"%char)
    in H as [H1%chars_inj H2%chars_inj]; done.
Qed.

Lemma frames_exclusive (l d1 d2 e1 e2 : string) :
  App.chrome_frame l d1 d2 → App.firefox_frame l e1 e2 → False.
Proof.
  intros (_ & _ & pre & ->) (_ & He2 & pre' & H).
  apply digit_string_chars in He2 as [He2 Hne].
  apply (f_equal chars) in H. rewrite !chars_app in H.
  change (chars ")") with [")"%char] in H.
  destruct (chars e2) as [|z zs _] using rev_ind; [done|].
  apply Forall_app in He2 as [_ Hz]. apply Forall_cons in Hz as [Hz _].
  rewrite !app_assoc in H. apply app_inj_tail in H as [_ E]. subst z.
  unfold digit in Hz. simpl in Hz. discriminate.
Qed.





(** A Chrome stack: the frame on the second line is at line 12, column
    5, which is line 11 of the editor. *)
Example chrome_stack_located :
  App._handle_js_error
    {| App.message := "a is not defined";
       App.originalStack := None;
       App.stack := "ReferenceError: a is not defined" +:+ String App.newline
         "    at eval (eval at <anonymous> (app.js:10:3), <anonymous>:12:5)" |}
  = App.runtime_error "a is not defined" {| App.line := 11; App.column := 5 |}.
Proof. vm_compute. reflexivity. Qed.

(** A Firefox stack: the line number is taken as it is. *)
Example firefox_stack_located :
  App._extract_js_error_loc
    {| App.message := "a is not defined";
       App.originalStack := Some "anonymous@app.js line 10 > Function:12:5";
       App.stack := "" |}
  = Some {| App.line := 12; App.column := 5 |}.
Proof. vm_compute. reflexivity. Qed.

(** A stack without a frame of either shape is only printed. *)
Example foreign_stack_unlocated :
  App._handle_js_error
    {| App.message := "boom";
       App.originalStack := None;
       App.stack := "Error: boom" +:+ String App.newline "    at app.js:3:1" |}
  = App.console_error ("Error: boom" +:+ String App.newline "    at app.js:3:1").
Proof. vm_compute. reflexivity. Qed.

(** The earlier revision never returns [null]: on a stack without a
    frame where it looks it throws instead. *)
Lemma legacy_extract_never_null (e : App.JsError) :
  Legacy._extract_js_error_loc e ≠ Legacy.Returned None.
Proof.
  unfold Legacy._extract_js_error_loc.
  destruct (App.split_lines (App.stack e) !! 1) as [l1|]; [|done].
  destruct (App.regexp_match App.anon l1); [done|].
  destruct (App.split_lines (App.stack e) !! 0) as [l0|]; [|done].
  by destruct (App.regexp_match App.func l0).
Qed.

Example legacy_foreign_stack_throws :
  Legacy._handle_js_error
    {| App.message := "boom";
       App.originalStack := None;
       App.stack := "Error: boom" +:+ String App.newline "    at app.js:3:1" |}
  = Legacy.TypeError.
Proof. vm_compute. reflexivity. Qed.

(* ===================================================================== *)
(* Properties of the document store                                      *)
(* ===================================================================== *)

(** C8 (as the code has it). For a document without an [id] the
    callback is called with [null], but the method does not return
    there: it goes on to open a read-write transaction and to call
    [store.delete(undefined)], which the database rejects with a
    [DataError] that leaves the method as an exception; the records are
    as before. *)
Theorem delete_without_id_goes_on (doc : IDB.document) (fault : bool)
    (db : IDB.database) :
  match doc !! "id" with
  | Some _ => True
  | None =>
      Store.delete doc fault db =
        {| Store.calls := [Store.Transaction Store.readwrite;
                           Store.Delete IDB.JUndefined];
           Store.callbacks := [Store.CbNull];
           Store.thrown := true;
           Store.db_after := db |}
  end.
Proof.
  destruct (doc !! "id") as [v|] eqn:E; [done|].
  unfold Store.delete, IDB.prop, IDB.has_prop. by rewrite E.
Qed.

(** The empty document: [cb(this, null)], then [store.delete(undefined)]
    and the exception. *)
Example delete_empty_document :
  Store.delete ∅ false {| IDB.records := ∅; IDB.generator := 1 |} =
    {| Store.calls := [Store.Transaction Store.readwrite;
                       Store.Delete IDB.JUndefined];
       Store.callbacks := [Store.CbNull];
       Store.thrown := true;
       Store.db_after := {| IDB.records := ∅; IDB.generator := 1 |} |}.
Proof. reflexivity. Qed.



(** ** The order of the cursor *)

#[local] Instance key_le_total : Total IDB.key_le.
Proof.
  intros [x|x|x] [y|y|y]; simpl; auto; try lia.
  apply (total String.le).
Qed.

#[local] Instance key_le_trans : Transitive IDB.key_le.
Proof.
  intros [x|x|x] [y|y|y] [z|z|z]; simpl; try done; try lia.
  apply (transitivity (R := String.le)).
Qed.

#[local] Instance key_le_refl : Reflexive IDB.key_le.
Proof. intros [x|x|x]; simpl; [lia|lia|reflexivity]. Qed.

Lemma key_le_antisym (a b : IDB.key) :
  IDB.key_le a b → IDB.key_le b a → a = b.
Proof.
  destruct a as [x|x|x], b as [y|y|y]; simpl; try done.
  - intros. f_equal. lia.
  - intros. f_equal. lia.
  - intros H1 H2. f_equal. by apply (anti_symm String.le).
Qed.

#[local] Instance entry_le_total : Total IDB.entry_le.
Proof.
  intros a b. unfold IDB.entry_le.
  destruct (decide (IDB.key_le a.1.1 b.1.1)) as [Hab|Hab]; [|by right; left].
  destruct (decide (IDB.key_le b.1.1 a.1.1)) as [Hba|Hba]; [|by left; left].
  pose proof (key_le_antisym _ _ Hab Hba) as E.
  destruct (total IDB.key_le a.1.2 b.1.2); [left|right]; right; done.
Qed.






#[local] Instance not_older_trans : Transitive not_older.
Proof.
  intros a b c. unfold not_older.
  destruct (modification_time a), (modification_time b),
    (modification_time c); try done.
  intros H1 H2. by etrans.
Qed.



Lemma all_answers_alone (values ret : list IDB.document) :
  Store.all_answers values None ret = Store.CbDocs (ret ++ values).
Proof.
  revert ret. induction values as [|v values IH]; intros ret; simpl.
  - by rewrite app_nil_r.
  - rewrite IH. by rewrite <- app_assoc.
Qed.


(** Three documents saved one after the other: [all] lists them from
    the newest to the oldest, [last] gives the newest. *)
Example all_and_last_of_three :
  let doc (t : Z) : IDB.document := {[ "modification_time" := IDB.JDate t ]} in
  let save doc db := Store.db_after (Store.save doc true false db) in
  let db := save (doc 20%Z) (save (doc 10%Z) (save (doc 30%Z)
              {| IDB.records := ∅; IDB.generator := 1 |})) in
  Store.callbacks (Store.all None db) =
    [Store.CbDocs [<["id" := IDB.JNum 1]> (doc 30%Z);
                   <["id" := IDB.JNum 3]> (doc 20%Z);
                   <["id" := IDB.JNum 2]> (doc 10%Z)]] ∧
  Store.callbacks (Store.last false db) =
    [Store.CbDoc (<["id" := IDB.JNum 1]> (doc 30%Z))].
Proof. vm_compute. split; reflexivity. Qed.

(* ===================================================================== *)
(* Consistency and growth of the tables                                  *)
(* ===================================================================== *)

#[local] Instance grown_from_refl : Reflexive grown_from.
Proof. intros c. by repeat split. Qed.

#[local] Instance grown_from_trans : Transitive grown_from.
Proof.
  intros c1 c2 c3 (H1 & H2 & H3 & H4) (H1' & H2' & H3' & H4').
  repeat split; by etrans.
Qed.

Lemma add_operator_grown sig o c : grown_from c (add_operator sig o c).
Proof.
  repeat split; simpl; try done.
  - by apply prefix_app_r.
  - rewrite dom_insert_L. set_solver.
Qed.

Lemma define_builtin_function_grown rettype n ps c r c' :
  define_builtin_function rettype n ps c = Some (r, c') → grown_from c c'.
Proof.
  intros H. apply define_builtin_function_spec in H
    as (h & _ & [(_ & _ & ->)|(Hnone & _ & HF & HM & HO & HOM)]); [done|].
  repeat split.
  - rewrite HF. by apply prefix_app_r.
  - rewrite HM. by apply insert_subseteq.
  - by rewrite HO.
  - by rewrite HOM.
Qed.

Lemma snd_define_builtin_function_grown rettype n ps c c' :
  snd <$> define_builtin_function rettype n ps c = Some c' → grown_from c c'.
Proof.
  destruct (define_builtin_function rettype n ps c) as [[r c1]|] eqn:E;
    simpl; [|discriminate].
  intros [= <-]. by eapply define_builtin_function_grown.
Qed.

Lemma register_grown (r : registration) (c c' : catalogue) :
  register r c = Some c' → grown_from c c'.
Proof.
  destruct r as [rt n ps|rt n ps|rt n ps|rt n ps|rt ops l r gens|rt ops e gens];
    simpl.
  - apply snd_define_builtin_function_grown.
  - apply for_each_preserves; [apply _..|].
    intros g s s' _. apply snd_define_builtin_function_grown.
  - apply for_each_preserves; [apply _..|].
    intros g s s' _. apply snd_define_builtin_function_grown.
  - apply for_each_preserves; [apply _..|].
    intros g s s' _. apply snd_define_builtin_function_grown.
  - apply for_each_preserves; [apply _..|]. intros o' s s' _.
    apply for_each_preserves; [apply _..|]. intros g t t' _ H.
    apply bin_operator_step_spec in H as (? & ? & ? & _ & _ & _ & ->).
    apply add_operator_grown.
  - apply for_each_preserves; [apply _..|]. intros o' s s' _.
    apply for_each_preserves; [apply _..|]. intros g t t' _ H.
    apply unary_operator_step_spec in H as (? & ? & _ & _ & ->).
    apply add_operator_grown.
Qed.

(** X2. Registrations only add: whatever sequence of registrations
    runs, the functions and operators pushed before are still the
    beginning of the lists, every function entry of [FunctionMap] is
    still there unchanged, and every operator signature is still a
    key. *)
Theorem registrations_only_add (rs : list registration) (c c' : catalogue) :
  for_each register rs c = Some c' → grown_from c c'.
Proof.
  apply for_each_preserves; [apply _..|].
  intros r s s' _. apply register_grown.
Qed.

Lemma define_builtin_function_in_sync rettype n ps c r c' :
  functions_in_sync c →
  define_builtin_function rettype n ps c = Some (r, c') →
  functions_in_sync c'.
Proof.
  intros [Hnd Hmap] H. apply define_builtin_function_spec in H
    as (h & _ & [(_ & _ & ->)|(Hnone & _ & HF & HM & _ & _)]); [done|].
  assert (Hfresh : signature h ∉ proto_signature <$> Functions c).
  { intros (f & Hsig & Hf)%list_elem_of_fmap.
    assert (FunctionMap c !! signature h = Some f) as Hsome
      by (apply Hmap; done).
    by rewrite Hnone in Hsome. }
  split.
  - rewrite HF, fmap_app. apply NoDup_app. split; [done|]. split.
    + intros sig Hsig Hsig'. apply list_elem_of_singleton in Hsig'.
      by subst sig.
    + apply NoDup_singleton.
  - intros sig f. rewrite HM, HF, elem_of_app, list_elem_of_singleton.
    destruct (decide (signature h = sig)) as [<-|Hne].
    + rewrite lookup_insert_eq. split.
      * intros [= <-]. split; [by right|done].
      * intros [[Hf | ->] Hsig]; [|done].
        destruct Hfresh. apply list_elem_of_fmap. eauto.
    + rewrite lookup_insert_ne by done. rewrite Hmap. split.
      * intros [Hf Hsig]. split; [by left|done].
      * intros [[Hf | ->] Hsig]; [done|]. by destruct Hne.
Qed.

Lemma snd_define_builtin_function_in_sync rettype n ps c c' :
  snd <$> define_builtin_function rettype n ps c = Some c' →
  functions_in_sync c → functions_in_sync c'.
Proof.
  destruct (define_builtin_function rettype n ps c) as [[r c1]|] eqn:E;
    simpl; [|discriminate].
  intros [= <-] Hc. by eapply define_builtin_function_in_sync.
Qed.

#[local] Instance keeps_refl I : Reflexive (keeps I).
Proof. intros c Hc. exact Hc. Qed.

#[local] Instance keeps_trans I : Transitive (keeps I).
Proof. intros c1 c2 c3 H1 H2 Hc. by apply H2, H1. Qed.

Lemma functions_in_sync_same (c c' : catalogue) :
  Functions c' = Functions c → FunctionMap c' = FunctionMap c →
  functions_in_sync c → functions_in_sync c'.
Proof. unfold functions_in_sync. by intros -> ->. Qed.

Lemma register_functions_in_sync (r : registration) (c c' : catalogue) :
  register r c = Some c' → functions_in_sync c → functions_in_sync c'.
Proof.
  destruct r as [rt n ps|rt n ps|rt n ps|rt n ps|rt ops l r gens|rt ops e gens];
    simpl.
  - apply snd_define_builtin_function_in_sync.
  - apply (for_each_preserves (keeps functions_in_sync)); [apply _..|].
    intros g s s' _ H Hs. by eapply snd_define_builtin_function_in_sync.
  - apply (for_each_preserves (keeps functions_in_sync)); [apply _..|].
    intros g s s' _ H Hs. by eapply snd_define_builtin_function_in_sync.
  - apply (for_each_preserves (keeps functions_in_sync)); [apply _..|].
    intros g s s' _ H Hs. by eapply snd_define_builtin_function_in_sync.
  - intros H. apply bin_operator_gen_pushes in H as (news & _ & _ & HF & HM).
    by apply functions_in_sync_same.
  - intros H. apply unary_operator_gen_pushes in H as (news & _ & _ & HF & HM).
    by apply functions_in_sync_same.
Qed.

(** X1. The function tables stay consistent: if [Functions] holds no
    signature twice and [FunctionMap] maps exactly the signatures of its
    entries to them, the same is true after any sequence of
    registrations. *)
Theorem registrations_keep_functions_in_sync (rs : list registration)
    (c c' : catalogue) :
  functions_in_sync c → for_each register rs c = Some c' →
  functions_in_sync c'.
Proof.
  intros Hc H. revert Hc.
  apply (for_each_preserves (keeps functions_in_sync) register rs); [|done].
  intros r s s' _ Hr Hs. by eapply register_functions_in_sync.
Qed.

Lemma empty_functions_in_sync : functions_in_sync empty_catalogue.
Proof.
  split; [constructor|]. intros sig f. simpl. rewrite lookup_empty.
  split; [done|]. intros [Hf _]. by apply elem_of_nil in Hf.
Qed.

(** The tables the module builds are consistent. *)
Lemma registrations_keep_functions_in_sync_witness :
  when_loaded functions_in_sync.
Proof.
  unfold when_loaded, builtins, load_from.
  destruct (for_each register registrations empty_catalogue) as [cat|] eqn:E.
  - exact (registrations_keep_functions_in_sync registrations empty_catalogue
             cat empty_functions_in_sync E).
  - pose proof builtins_loads as [cat H].
    unfold builtins, load_from in H. congruence.
Defined.

Lemma add_operator_in_sync sig o c :
  op_signature o = Some sig →
  operators_in_sync c → operators_in_sync (add_operator sig o c).
Proof.
  intros Ho [Hmap Hlist]. split; simpl.
  - intros sig' o'. destruct (decide (sig = sig')) as [<-|Hne].
    + rewrite lookup_insert_eq. intros [= <-]. split; [done|].
      apply elem_of_app. right. by left.
    + rewrite lookup_insert_ne by done. intros [H1 H2]%Hmap.
      split; [done|]. apply elem_of_app. by left.
  - intros o' [Ho'|Ho']%elem_of_app.
    + destruct (Hlist o' Ho') as (sig' & H1 & H2). exists sig'.
      split; [done|]. destruct (decide (sig = sig')) as [<-|Hne].
      * rewrite lookup_insert_eq. eauto.
      * by rewrite lookup_insert_ne.
    + apply list_elem_of_singleton in Ho' as ->. exists sig.
      split; [done|]. rewrite lookup_insert_eq. eauto.
Qed.

Lemma operators_in_sync_same (c c' : catalogue) :
  same_operators c c' → operators_in_sync c → operators_in_sync c'.
Proof. unfold operators_in_sync. by intros [-> ->]. Qed.

Lemma register_operators_in_sync (r : registration) (c c' : catalogue) :
  register r c = Some c' → operators_in_sync c → operators_in_sync c'.
Proof.
  destruct r as [rt n ps|rt n ps|rt n ps|rt n ps|rt ops l r gens|rt ops e gens];
    simpl.
  - intros H. apply operators_in_sync_same.
    by apply snd_define_builtin_function_same_operators in H.
  - intros H. apply operators_in_sync_same.
    by apply define_builtin_function_gen_same_operators in H.
  - intros H. apply operators_in_sync_same.
    by apply define_builtin_function_gen_same_operators in H.
  - intros H. apply operators_in_sync_same.
    by apply define_builtin_relvec_function_same_operators in H.
  - apply (for_each_preserves (keeps operators_in_sync)); [apply _..|].
    intros o' s s' _.
    apply (for_each_preserves (keeps operators_in_sync)); [apply _..|].
    intros g t t' _ H.
    apply bin_operator_step_spec in H as (? & ? & ? & _ & _ & _ & ->).
    intros Ht. by apply add_operator_in_sync.
  - apply (for_each_preserves (keeps operators_in_sync)); [apply _..|].
    intros o' s s' _.
    apply (for_each_preserves (keeps operators_in_sync)); [apply _..|].
    intros g t t' _ H.
    apply unary_operator_step_spec in H as (? & ? & _ & _ & ->).
    intros Ht. by apply add_operator_in_sync.
Qed.

(** X3. The operator tables stay consistent: if every entry of
    [OperatorMap] is an operator of [Operators] stored under its own
    signature and every operator of [Operators] has its signature among
    the keys, the same is true after any sequence of registrations. *)
Theorem registrations_keep_operators_in_sync (rs : list registration)
    (c c' : catalogue) :
  operators_in_sync c → for_each register rs c = Some c' →
  operators_in_sync c'.
Proof.
  intros Hc H. revert Hc.
  apply (for_each_preserves (keeps operators_in_sync) register rs); [|done].
  intros r s s' _ Hr Hs. by eapply register_operators_in_sync.
Qed.

Lemma empty_operators_in_sync : operators_in_sync empty_catalogue.
Proof.
  split; simpl.
  - intros sig o. by rewrite lookup_empty.
  - intros o Ho. by apply elem_of_nil in Ho.
Qed.

(** The operator tables the module builds are consistent. *)
Lemma registrations_keep_operators_in_sync_witness :
  when_loaded operators_in_sync.
Proof.
  unfold when_loaded, builtins, load_from.
  destruct (for_each register registrations empty_catalogue) as [cat|] eqn:E.
  - exact (registrations_keep_operators_in_sync registrations empty_catalogue
             cat empty_operators_in_sync E).
  - pose proof builtins_loads as [cat H].
    unfold builtins, load_from in H. congruence.
Defined.

Lemma for_each_app {A S : Type} (body : A → S → option S) (l1 l2 : list A)
    (s : S) :
  for_each body (l1 ++ l2) s = for_each body l1 s ≫= for_each body l2.
Proof.
  revert s. induction l1 as [|x l1 IH]; intros s; simpl; [done|].
  destruct (body x s) as [s1|]; simpl; [apply IH|done].
Qed.

(** The operator registrations of the module, run after its function
    registrations, leave every function entry in place. *)
Lemma registrations_only_add_witness :
  when_loaded (λ cat,
    ∃ c, for_each register function_registrations empty_catalogue = Some c ∧
         for_each register operator_registrations c = Some cat ∧
         grown_from c cat).
Proof.
  pose proof builtins_loads as [cat Hcat].
  unfold when_loaded. rewrite Hcat.
  unfold builtins, load_from, registrations in Hcat.
  rewrite for_each_app in Hcat. apply bind_Some in Hcat as (c & E & Hcat).
  exists c. split; [exact E|]. split; [exact Hcat|].
  exact (registrations_only_add operator_registrations c cat Hcat).
Defined.

(* ===================================================================== *)
(* Generic expansion from any tables                                     *)
(* ===================================================================== *)

Lemma TypeMap_at_builtin (t : token) :
  t ∈ btypetoks → TypeMap_at (Tok t) = Decl (builtin_decl t).
Proof.
  intros Ht. unfold TypeMap_at. rewrite TypeMap_get_btypetoks.
  by rewrite bool_decide_eq_true_2.
Qed.

(** The slot the generator hands to [define_builtin_function]. *)
Lemma generic_slot_resolved (g : token) (v : jsval) :
  g ∈ btypetoks → generic_slot v →
  match v with Null => TypeMap_at (Tok g) | item => TypeMap_at item end
  = Decl (builtin_decl (concrete_slot g v)).
Proof.
  intros Hg [->|(t & -> & Ht)]; cbn [concrete_slot];
    by apply TypeMap_at_builtin.
Qed.

Lemma make_param_resolved (g : token) (p : jsval * string) :
  g ∈ btypetoks → generic_slot p.1 →
  make_param
    (resolve_slot (match p.1 with
                   | Null => TypeMap_at (Tok g)
                   | item => TypeMap_at item
                   end), p.2)
  = Some (builtin_param (concrete_slot g p.1, p.2)).
Proof.
  intros Hg Hp. destruct p as [v nm]. cbn [fst snd] in *.
  destruct Hp as [->|(t & -> & Ht)]; unfold resolve_slot;
    rewrite TypeMap_at_builtin by done; done.
Qed.

Lemma make_params_resolved (g : token) (ps : params) :
  g ∈ btypetoks → Forall (λ p, generic_slot p.1) ps →
  mapM make_param
    (map (λ sp : jsval * string, (resolve_slot sp.1, sp.2))
       (map (λ it : jsval * string,
               (match it.1 with
                | Null => TypeMap_at (Tok g)
                | item => TypeMap_at item
                end, it.2)) ps))
  = Some (builtin_param <$> ((λ p, (concrete_slot g p.1, p.2)) <$> ps)).
Proof.
  intros Hg Hps. induction Hps as [|p ps Hp Hps IH]; [done|].
  pose proof (make_param_resolved g p Hg Hp) as E.
  change (mapM make_param (map ?F1 (map ?F2 (p :: ps))))
    with (y ← make_param (F1 (F2 p));
          k ← mapM make_param (map F1 (map F2 ps)); mret (y :: k)).
  cbn beta. cbn [fst snd]. rewrite E, IH. reflexivity.
Qed.

Lemma make_header_resolved (g : token) (rettype : jsval) (n : string)
    (ps : params) :
  g ∈ btypetoks → generic_slot rettype → Forall (λ p, generic_slot p.1) ps →
  make_header
    (let rettype' :=
       match rettype with Null => Null | _ => TypeMap_at rettype end in
     match rettype' with Null => TypeMap_at (Tok g) | _ => rettype' end) n
    (map (λ it : jsval * string,
            (match it.1 with
             | Null => TypeMap_at (Tok g)
             | item => TypeMap_at item
             end, it.2)) ps)
  = Some (fp_header (gentype_instance rettype n ps g)).
Proof.
  intros Hg Hr Hps. unfold make_header.
  rewrite (make_params_resolved g ps Hg Hps).
  destruct Hr as [->|(t & -> & Ht)]; rewrite TypeMap_at_builtin by done; done.
Qed.

Lemma function_gen_loop (rettype : jsval) (n : string) (ps : params)
    (gentypes : list token) :
  generic_slot rettype → Forall (λ p, generic_slot p.1) ps →
  Forall (λ g, g ∈ btypetoks) gentypes →
  ∀ c, functions_in_sync c →
  ∃ c' news,
    define_builtin_function_gen gentypes rettype n ps c = Some c' ∧
    functions_in_sync c' ∧
    Functions c' = Functions c ++ news ∧
    Forall (λ f, ∃ g, g ∈ gentypes ∧ f = gentype_instance rettype n ps g) news ∧
    ∀ g, g ∈ gentypes →
      is_Some (FunctionMap c' !!
                 proto_signature (gentype_instance rettype n ps g)).
Proof.
  intros Hr Hps Hgs. unfold define_builtin_function_gen.
  induction Hgs as [|g gentypes Hg Hgs IH]; intros c Hc.
  - exists c, []. rewrite app_nil_r. do 3 (split; [done|]).
    split; [constructor|]. intros g Hg. by apply elem_of_nil in Hg.
  - cbn [for_each].
    destruct (define_builtin_function _ n _ c) as [[r c1]|] eqn:E; last first.
    { unfold define_builtin_function in E.
      match type of E with
      | context [make_header ?X n ?Y] =>
          assert (Hh : make_header X n Y
                       = Some (fp_header (gentype_instance rettype n ps g)))
            by exact (make_header_resolved g rettype n ps Hg Hr Hps)
      end.
      rewrite Hh in E. simpl in E. by case_decide. }
    pose proof (define_builtin_function_in_sync _ _ _ _ _ _ Hc E) as Hc1.
    pose proof (define_builtin_function_grown _ _ _ _ _ _ E) as Hgrow.
    apply define_builtin_function_spec in E as (h & Hh & Hcase).
    assert (Hh' : Some h = Some (fp_header (gentype_instance rettype n ps g))).
    { rewrite <- Hh. exact (make_header_resolved g rettype n ps Hg Hr Hps). }
    injection Hh' as ->.
    destruct (IH c1 Hc1) as (c' & news & Hrun & Hc' & HF & Hnews & Hcov).
    assert (Hsub : FunctionMap c1 ⊆ FunctionMap c').
    { assert (Hg' : grown_from c1 c'); [|by destruct Hg' as (_ & ? & _)].
      revert Hrun. apply for_each_preserves; [apply _..|].
      intros g' s s' _. apply snd_define_builtin_function_grown. }
    assert (Hmine : is_Some (FunctionMap c1 !!
               proto_signature (gentype_instance rettype n ps g))).
    { destruct Hcase as [(Hin & _ & Hc1c)|(_ & _ & _ & HM1 & _)].
      - by rewrite Hc1c.
      - rewrite HM1. unfold proto_signature. rewrite lookup_insert_eq. eauto. }
    destruct Hcase as [(_ & _ & ->)|(_ & _ & HF1 & _)].
    + exists c', news.
      split; [exact Hrun|]. split; [done|]. split; [done|]. split.
      * eapply Forall_impl; [exact Hnews|]. intros f (g' & Hg' & ->).
        exists g'. split; [by right|done].
      * intros g' [->|Hg']%elem_of_cons; [|by apply Hcov].
        destruct Hmine as [f Hf]. exists f. by eapply lookup_weaken.
    + exists c', (gentype_instance rettype n ps g :: news).
      split; [exact Hrun|]. split; [done|].
      split; [by rewrite HF, HF1, <- app_assoc|]. split.
      * constructor; [exists g; split; [by left|done]|].
        eapply Forall_impl; [exact Hnews|]. intros f (g' & Hg' & ->).
        exists g'. split; [by right|done].
      * intros g' [->|Hg']%elem_of_cons; [|by apply Hcov].
        destruct Hmine as [f Hf]. exists f. by eapply lookup_weaken.
Qed.

(** X7. Generic expansion from any consistent tables: when the type
    slots are the marker [null] or builtin type tokens and the concrete
    types are builtin type tokens, the expansion does not throw, keeps
    the tables consistent, pushes only instances of the registration
    (the marker replaced by one of the concrete types), and leaves an
    entry under the signature of the instance of every concrete type. *)
Theorem generic_expansion_covers (gentypes : list token) (rettype : jsval)
    (n : string) (ps : params) (c : catalogue) :
  functions_in_sync c →
  generic_slot rettype → Forall (λ p, generic_slot p.1) ps →
  Forall (λ g, g ∈ btypetoks) gentypes →
  ∃ c' news,
    define_builtin_function_gen gentypes rettype n ps c = Some c' ∧
    functions_in_sync c' ∧
    Functions c' = Functions c ++ news ∧
    Forall (λ f, ∃ g, g ∈ gentypes ∧ f = gentype_instance rettype n ps g) news ∧
    ∀ g, g ∈ gentypes →
      ∃ f, FunctionMap c' !! proto_signature (gentype_instance rettype n ps g)
             = Some f ∧
           proto_signature f = proto_signature (gentype_instance rettype n ps g) ∧
           (f ∈ Functions c ∨
            ∃ g', g' ∈ gentypes ∧ f = gentype_instance rettype n ps g').
Proof.
  intros Hc Hr Hps Hgs.
  destruct (function_gen_loop rettype n ps gentypes Hr Hps Hgs c Hc)
    as (c' & news & Hrun & Hc' & HF & Hnews & Hcov).
  exists c', news. do 4 (split; [done|]).
  intros g Hg. destruct (Hcov g Hg) as [f Hf]. exists f. split; [done|].
  apply (proj2 Hc') in Hf as [Hin Hsig]. split; [done|].
  rewrite HF in Hin. apply elem_of_app in Hin as [Hin|Hin]; [by left|right].
  rewrite Forall_forall in Hnews. by apply Hnews.
Qed.

(** The matrix function of the module, registered into empty tables:
    it has an entry for [mat3]. *)
Lemma generic_expansion_covers_witness :
  ∃ c', define_builtin_mat_function Null "matrixCompMult"
          [(Null, "x"); (Null, "y")] empty_catalogue = Some c' ∧
        is_Some (FunctionMap c' !! "matrixCompMult(mat3,mat3)").
Proof.
  assert (Hps : Forall (λ p : jsval * string, generic_slot p.1)
                  [(Null, "x"); (Null, "y")])
    by (repeat constructor).
  assert (Hgs : Forall (λ g, g ∈ btypetoks) [T_MAT2; T_MAT3; T_MAT4])
    by (repeat constructor; apply (bool_decide_unpack _); exact I).
  destruct (generic_expansion_covers [T_MAT2; T_MAT3; T_MAT4] Null
              "matrixCompMult" [(Null, "x"); (Null, "y")] empty_catalogue
              empty_functions_in_sync (or_introl eq_refl) Hps Hgs)
    as (c' & news & Hrun & _ & _ & _ & Hcov).
  exists c'. split; [exact Hrun|].
  destruct (Hcov T_MAT3) as (f & Hf & _).
  - apply (bool_decide_unpack _). exact I.
  - exists f. exact Hf.
Defined.

(* ===================================================================== *)
(* Entries of the loaded tables                                          *)
(* ===================================================================== *)

(** X4. In the loaded operator table, for each of [+], [-], [*] and
    [/], a [float] combines on either side with [vec2], [vec3], [vec4],
    [mat2] and [mat3], but there is no entry for a [float] with a
    [mat4] on either side (while [mat4] with [mat4] has one): the
    registrations list [mat3] twice where [mat4] would stand, so that
    the [mat3] entries are pushed twice. *)
Theorem float_matrix_broadcast_entries : when_loaded float_broadcasts.
Proof.
  assert (H : holds_when_loaded (λ cat, bool_decide (float_broadcasts cat)))
    by (vm_compute; reflexivity).
  revert H. apply when_loaded_impl. intros cat _ H.
  by apply bool_decide_eq_true in H.
Qed.

(** X6. In the loaded operator table the unary [-], [--] and [++] have
    an entry for each of the eleven numeric types and for no other
    operand, [!] has an entry for [bool] only, and every such entry
    returns the type of its operand and has no [lhs] or [rhs]. *)
Theorem unary_operator_entries :
  when_loaded (λ cat,
    ∀ e,
      (∀ o, o ∈ [T_DASH; T_DEC_OP; T_INC_OP] →
         (e ∈ numeric_types → unary_entry cat o e = Some (unary_operator o e)) ∧
         (e ∉ numeric_types → unary_entry cat o e = None)) ∧
      unary_entry cat T_BANG T_BOOL = Some (unary_operator T_BANG T_BOOL) ∧
      (e ≠ T_BOOL → unary_entry cat T_BANG e = None)).
Proof.
  assert (H : holds_when_loaded (λ cat, bool_decide (unary_entries cat)))
    by (vm_compute; reflexivity).
  revert H. apply when_loaded_impl. intros cat _ H.
  apply bool_decide_eq_true in H. unfold unary_entries in H.
  rewrite Forall_forall in H. intros e.
  destruct (H e (all_tokens_complete e)) as [H1 H2].
  rewrite Forall_forall in H1. split; [|split].
  - intros o Ho. specialize (H1 o Ho). split; intros He.
    + by rewrite bool_decide_eq_true_2 in H1.
    + by rewrite bool_decide_eq_false_2 in H1.
  - destruct (H T_BOOL (all_tokens_complete T_BOOL)) as [_ H3]. exact H3.
  - intros He. by rewrite bool_decide_eq_false_2 in H2.
Qed.

(** X5. The classification of a token: at most one of scalar, vector
    and matrix, and at most one of int, float and bool; the length is
    at most four, and it is zero exactly when the token is none of
    scalar, vector and matrix, which is exactly when it has no element
    kind; the length is one exactly for a scalar; a matrix has float
    elements; and the token has a name exactly when it is one of the
    eighteen builtin type tokens. *)
Theorem Type_classification (tok : token) :
  let T := Type_.new tok in
  (count_true [Type_.is_scalar T; Type_.is_vec T; Type_.is_mat T] ≤ 1)%nat ∧
  (count_true [Type_.is_int T; Type_.is_float T; Type_.is_bool T] ≤ 1)%nat ∧
  (Type_.length T ≤ 4)%nat ∧
  (Type_.length T = 0 ↔
     count_true [Type_.is_scalar T; Type_.is_vec T; Type_.is_mat T] = 0) ∧
  (Type_.length T = 0 ↔
     count_true [Type_.is_int T; Type_.is_float T; Type_.is_bool T] = 0) ∧
  (Type_.length T = 1 ↔ Type_.is_scalar T = true) ∧
  (Type_.is_mat T = true → Type_.is_float T = true) ∧
  (is_Some (Type_.name T) ↔ tok ∈ btypetoks).
Proof.
  intros T. subst T.
  do 3 (split; [destruct tok; vm_compute; lia|]).
  do 3 (split; [destruct tok; vm_compute; split; intros H;
                  first [reflexivity | discriminate H]|]).
  split; [destruct tok; vm_compute; intros H;
            first [reflexivity | discriminate H]|].
  split.
  - intros [s Hs].
    destruct tok; try discriminate; apply (bool_decide_unpack _); exact I.
  - intros H. apply (bool_decide_pack _) in H.
    destruct tok; cbn; try eauto; done.
Qed.

(* ===================================================================== *)
(* The earlier revision of the error location                            *)
(* ===================================================================== *)

(** X8. The earlier revision looks for a Chrome frame on the second
    line of [e.stack] only, and for a Firefox frame on the first line
    only: it returns a position exactly when the second line carries a
    Chrome frame (that frame's position), or carries none while the
    first line carries a Firefox frame (that frame's); in every other
    case, a stack of a single line among them, it throws.  It never
    returns [null]. *)
Theorem legacy_error_location (e : App.JsError) :
  let lines := App.split_lines (App.stack e) in
  let chrome_at l loc :=
    ∃ d1 d2, App.chrome_frame l d1 d2 ∧
      loc = {| App.line := App.parseInt d1 - 1; App.column := App.parseInt d2 |} in
  let firefox_at l loc :=
    ∃ d1 d2, App.firefox_frame l d1 d2 ∧
      loc = {| App.line := App.parseInt d1; App.column := App.parseInt d2 |} in
  let found loc :=
    ∃ l0 l1, lines !! 0%nat = Some l0 ∧ lines !! 1%nat = Some l1 ∧
      (chrome_at l1 loc ∨
       ((∀ d1 d2, ¬ App.chrome_frame l1 d1 d2) ∧ firefox_at l0 loc)) in
  (∀ loc, Legacy._extract_js_error_loc e = Legacy.Returned (Some loc) ↔ found loc) ∧
  (Legacy._extract_js_error_loc e = Legacy.TypeError ↔ ¬ ∃ loc, found loc) ∧
  (lines !! 1%nat = None → Legacy._handle_js_error e = Legacy.TypeError) ∧
  Legacy._extract_js_error_loc e ≠ Legacy.Returned None.
Proof.
  intros lines chrome_at firefox_at found.
  assert (Hcases :
    match Legacy._extract_js_error_loc e with
    | Legacy.Returned (Some loc) => found loc ∧ ∀ loc', found loc' → loc' = loc
    | Legacy.Returned None => False
    | Legacy.TypeError => ∀ loc, ¬ found loc
    end).
  { subst found chrome_at firefox_at lines.
    unfold Legacy._extract_js_error_loc.
    destruct (App.split_lines (App.stack e)) as [|l0 [|l1 rest]].
    { intros loc (l0 & l1 & ? & _). done. }
    { intros loc (l0' & l1 & _ & ? & _). done. }
    assert (E0 : (l0 :: l1 :: rest) !! 0%nat = Some l0) by done.
    assert (E1 : (l0 :: l1 :: rest) !! 1%nat = Some l1) by done.
    revert E0 E1. generalize (l0 :: l1 :: rest). intros lines E0 E1.
    rewrite E1, E0.
    destruct (App.regexp_match App.anon l1) as [m|] eqn:Ea.
    { apply regexp_match_anon_Some in Ea as (d1 & d2 & -> & Hf). simpl. split.
      - exists l0, l1. do 2 (split; [done|]). left. by exists d1, d2.
      - intros loc' (l0' & l1' & E0' & E1' & H).
        assert (l1' = l1) as -> by congruence.
        destruct H as [(e1 & e2 & Hf' & ->)|[Hno _]].
        + by destruct (chrome_frame_unique _ _ _ _ _ Hf Hf') as [-> ->].
        + by destruct (Hno d1 d2). }
    pose proof (proj1 (regexp_match_anon_None l1) Ea) as Hno.
    destruct (App.regexp_match App.func l0) as [m|] eqn:Ef.
    { apply regexp_match_func_Some in Ef as (d1 & d2 & -> & Hf). simpl. split.
      - exists l0, l1. do 2 (split; [done|]). right. split; [done|].
        by exists d1, d2.
      - intros loc' (l0' & l1' & E0' & E1' & H).
        assert (l1' = l1) as -> by congruence.
        assert (l0' = l0) as -> by congruence.
        destruct H as [(e1 & e2 & Hf' & ->)|[_ (e1 & e2 & Hf' & ->)]].
        + by destruct (Hno e1 e2).
        + by destruct (firefox_frame_unique _ _ _ _ _ Hf Hf') as [-> ->]. }
    pose proof (proj1 (regexp_match_func_None l0) Ef) as Hnof.
    intros loc (l0' & l1' & E0' & E1' & H).
    assert (l1' = l1) as -> by congruence.
    assert (l0' = l0) as -> by congruence.
    destruct H as [(e1 & e2 & Hf' & ->)|[_ (e1 & e2 & Hf' & ->)]].
    - by destruct (Hno e1 e2).
    - by destruct (Hnof e1 e2). }
  split; [|split; [|split]].
  - intros loc. destruct (Legacy._extract_js_error_loc e) as [[loc0|]|].
    + destruct Hcases as [Hf Hu]. split.
      * by intros [= <-].
      * intros Hloc. by rewrite (Hu loc Hloc).
    + done.
    + split; [done|]. intros Hloc. by destruct (Hcases loc).
  - destruct (Legacy._extract_js_error_loc e) as [[loc0|]|].
    + destruct Hcases as [Hf _]. split; [done|]. intros Hno. destruct Hno. eauto.
    + done.
    + split; [|done]. intros _ [loc Hloc]. by destruct (Hcases loc).
  - intros E1. unfold Legacy._handle_js_error, Legacy._extract_js_error_loc.
    fold lines. by rewrite E1.
  - by destruct (Legacy._extract_js_error_loc e) as [[loc0|]|].
Qed.

(** X9. On an error without [originalStack], whenever the earlier
    revision returns a position the current one returns one as well:
    the same position, unless the first line of the stack carries a
    frame of its own, which the current revision then prefers to the
    Chrome frame of the second line. *)
Theorem legacy_location_kept (e : App.JsError) (loc : App.location) :
  App.originalStack e = None →
  Legacy._extract_js_error_loc e = Legacy.Returned (Some loc) →
  ∃ loc',
    App._extract_js_error_loc e = Some loc' ∧
    (loc' = loc ∨
     ∃ l0 l1, App.split_lines (App.stack e) !! 0%nat = Some l0 ∧
              App.split_lines (App.stack e) !! 1%nat = Some l1 ∧
              frame_at l0 loc' ∧ frame_at l1 loc).
Proof.
  intros Ho. unfold Legacy._extract_js_error_loc, App._extract_js_error_loc,
    App.stack_of. rewrite Ho.
  destruct (App.split_lines (App.stack e)) as [|l0 [|l1 rest]]; [done|done|].
  simpl.
  destruct (App.regexp_match App.anon l1) as [m|] eqn:Ea1.
  - intros [= <-].
    apply regexp_match_anon_Some in Ea1 as Hl1. destruct Hl1 as (d1 & d2 & -> & Hf1).
    assert (Hat1 : frame_at l1 {| App.line := App.parseInt d1 - 1;
                                  App.column := App.parseInt d2 |}).
    { left. by exists d1, d2. }
    destruct (App.regexp_match App.anon l0) as [m0|] eqn:Ea0.
    { apply regexp_match_anon_Some in Ea0 as (e1 & e2 & -> & Hf0).
      eexists. split; [done|]. right. exists l0, l1. do 2 (split; [done|]).
      split; [|done]. left. by exists e1, e2. }
    destruct (App.regexp_match App.func l0) as [m0|] eqn:Ef0.
    { apply regexp_match_func_Some in Ef0 as (e1 & e2 & -> & Hf0).
      eexists. split; [done|]. right. exists l0, l1. do 2 (split; [done|]).
      split; [|done]. right. by exists e1, e2. }
    eexists. split; [done|]. by left.
  - destruct (App.regexp_match App.func l0) as [m|] eqn:Ef0; [|done].
    intros [= <-].
    apply regexp_match_func_Some in Ef0 as Hl0. destruct Hl0 as (d1 & d2 & -> & Hf0).
    destruct (App.regexp_match App.anon l0) as [m0|] eqn:Ea0.
    { apply regexp_match_anon_Some in Ea0 as (e1 & e2 & _ & Hc0).
      by destruct (frames_exclusive _ _ _ _ _ Hc0 Hf0). }
    eexists. split; [done|]. by left.
Qed.

(** A Chrome stack whose first line is the message. *)
Lemma legacy_location_kept_witness :
  ∃ loc',
    App._extract_js_error_loc
      {| App.message := "a is not defined";
         App.originalStack := None;
         App.stack := "ReferenceError: a is not defined" +:+ String App.newline
           "    at eval (eval at <anonymous> (app.js:10:3), <anonymous>:12:5)" |}
    = Some loc'.
Proof.
  destruct (legacy_location_kept
    {| App.message := "a is not defined";
       App.originalStack := None;
       App.stack := "ReferenceError: a is not defined" +:+ String App.newline
         "    at eval (eval at <anonymous> (app.js:10:3), <anonymous>:12:5)" |}
    {| App.line := 11; App.column := 5 |} eq_refl
    ltac:(vm_compute; reflexivity)) as (loc' & H & _).
  by exists loc'.
Defined.

(* ===================================================================== *)
(* Properties of the syntax-tree dumper                                  *)
(* ===================================================================== *)

Lemma length_append (a b : string) :
  String.length (a +:+ b) = (String.length a + String.length b)%nat.
Proof.
  induction a as [|c a IH]; [by rewrite append_nil_l|].
  rewrite append_cons. simpl. by rewrite IH.
Qed.

Lemma drop_chars_append (pre suf : string) :
  Dumpast.drop_chars (String.length pre) (pre +:+ suf) = suf.
Proof.
  induction pre as [|c pre IH].
  - rewrite append_nil_l. by destruct suf.
  - rewrite append_cons. exact IH.
Qed.

Lemma drop_chars_split (n : nat) (s : string) :
  ∃ pre, s = pre +:+ Dumpast.drop_chars n s.
Proof.
  revert s. induction n as [|n IH]; intros s.
  - exists EmptyString. rewrite append_nil_l. by destruct s.
  - destruct s as [|c s]; simpl.
    + by exists EmptyString.
    + destruct (IH s) as [pre Hpre]. exists (String c pre).
      rewrite append_cons. by rewrite <- Hpre.
Qed.

(** X10. [has_suffix(s, suf)] is true exactly when [s] ends in [suf],
    also when [suf] is the longer of the two (the negative position
    makes [slice] return a string shorter than [suf]) and when [suf] is
    empty.  So the parser is given the vertex type exactly for the file
    names that end in [.glslv], and the name of the written file, with
    [.ast] at its end, is never one of them. *)
Theorem has_suffix_ends_with (s suf : string) :
  (Dumpast.has_suffix s suf = true ↔ ∃ pre, s = pre +:+ suf) ∧
  (Dumpast.parser_type s = Dumpast.VERTEX ↔ ∃ pre, s = pre +:+ ".glslv") ∧
  Dumpast.parser_type (Dumpast.ast_path s) = Dumpast.FRAGMENT.
Proof.
  assert (Hsuf : ∀ s suf,
            Dumpast.has_suffix s suf = true ↔ ∃ pre, s = pre +:+ suf).
  { clear s suf. intros s suf. unfold Dumpast.has_suffix.
    rewrite bool_decide_eq_true. split.
    - intros <-. apply drop_chars_split.
    - intros [pre ->]. unfold Dumpast.slice.
      rewrite length_append.
      rewrite decide_False by lia.
      replace (Z.to_nat _) with (String.length pre) by lia.
      apply drop_chars_append. }
  split; [apply Hsuf|]. split.
  - unfold Dumpast.parser_type. rewrite <- Hsuf.
    by destruct (Dumpast.has_suffix s ".glslv").
  - unfold Dumpast.parser_type.
    destruct (Dumpast.has_suffix (Dumpast.ast_path s) ".glslv") eqn:E; [|done].
    apply Hsuf in E as [pre E]. unfold Dumpast.ast_path in E.
    apply (f_equal chars) in E. rewrite !chars_app in E.
    change (chars ".ast") with ([".";"a";"s"] ++ ["t"])%char in E.
    change (chars ".glslv") with ([".";"g";"l";"s";"l"] ++ ["v"])%char in E.
    rewrite !app_assoc in E. by apply app_inj_tail in E as [_ ?].
Qed.

(* ===================================================================== *)
(* Properties of the relative dates                                      *)
(* ===================================================================== *)

Lemma seconds_lt (ms : Z) (c : Q) :
  (inject_Z ms / 1000 < c)%Q ↔ (ms * Z.pos (Qden c) < Qnum c * 1000)%Z.
Proof. unfold Qlt. simpl. lia. Qed.

Lemma seconds_ge (ms : Z) (c : Q) :
  (c <= inject_Z ms / 1000)%Q ↔ (Qnum c * 1000 ≤ ms * Z.pos (Qden c))%Z.
Proof. unfold Qle. simpl. lia. Qed.

Lemma round_minutes (ms : Z) :
  RelDate.round (inject_Z ms / 1000 / RelDate.MINUTE)
  = ((ms + 30000) `div` 60000)%Z.
Proof.
  unfold RelDate.round, Qfloor. simpl. Z.div_mod_to_equations. lia.
Qed.

Lemma round_hours (ms : Z) :
  RelDate.round (inject_Z ms / 1000 / RelDate.HOUR)
  = ((ms + 1800000) `div` 3600000)%Z.
Proof.
  unfold RelDate.round, Qfloor. simpl. Z.div_mod_to_equations. lia.
Qed.

Lemma round_days (ms : Z) :
  RelDate.round (inject_Z ms / 1000 / RelDate.DAY)
  = ((ms + 43200000) `div` 86400000)%Z.
Proof.
  unfold RelDate.round, Qfloor. simpl. Z.div_mod_to_equations. lia.
Qed.

(** The method over whole milliseconds. *)
Lemma rel_date_milliseconds (toDateString : Z → string) (now date : Z) :
  let ms := (now - date)%Z in
  RelDate._rel_date toDateString now date =
    if decide (ms < 1770000)%Z then
      let mins := ((ms + 30000) `div` 60000)%Z in
      if decide (mins = 0%Z) then "less than a minute ago"
      else if decide (mins = 1%Z) then "a minute ago"
      else pretty mins +:+ " minutes ago"
    else if decide (ms < 2700000)%Z then "half an hour ago"
    else if decide (ms < 84600000)%Z then
      let hours := ((ms + 1800000) `div` 3600000)%Z in
      if decide (hours = 1%Z) then "an hour ago"
      else pretty hours +:+ " hours ago"
    else if decide (ms < 604800000)%Z then
      let days := ((ms + 43200000) `div` 86400000)%Z in
      if decide (days = 1%Z) then "a day ago"
      else pretty days +:+ " days ago"
    else "on " +:+ toDateString date.
Proof.
  intros ms. unfold RelDate._rel_date. fold ms. cbv zeta.
  rewrite round_minutes, round_hours, round_days.
  destruct (Qlt_le_dec _ _) as [H|H];
    [apply (proj1 (seconds_lt _ _)) in H|apply (proj1 (seconds_ge _ _)) in H];
    simpl in H.
  { destruct (decide (ms < 1770000)%Z); [done|lia]. }
  destruct (decide (ms < 1770000)%Z); [lia|].
  destruct (Qlt_le_dec _ _) as [H1|H1];
    [apply (proj1 (seconds_lt _ _)) in H1|apply (proj1 (seconds_ge _ _)) in H1];
    simpl in H1.
  { destruct (decide (ms < 2700000)%Z); [done|lia]. }
  destruct (decide (ms < 2700000)%Z); [lia|].
  destruct (Qlt_le_dec _ _) as [H2|H2];
    [apply (proj1 (seconds_lt _ _)) in H2|apply (proj1 (seconds_ge _ _)) in H2];
    simpl in H2.
  { destruct (decide (ms < 84600000)%Z); [done|lia]. }
  destruct (decide (ms < 84600000)%Z); [lia|].
  destruct (Qlt_le_dec _ _) as [H3|H3];
    [apply (proj1 (seconds_lt _ _)) in H3|apply (proj1 (seconds_ge _ _)) in H3];
    simpl in H3.
  { destruct (decide (ms < 604800000)%Z); [done|lia]. }
  destruct (decide (ms < 604800000)%Z); [lia|done].
Qed.

(** X11. The phrase for a date that is not in the future, by the
    milliseconds [ms] that have passed since: below half a minute
    [less than a minute ago]; below a minute and a half [a minute ago];
    below 29.5 minutes [N minutes ago] with the nearest count, which is
    from 2 to 29; below 45 minutes [half an hour ago]; below an hour
    and a half [an hour ago]; below 23.5 hours [N hours ago] with N
    from 2 to 23; below a day and a half [a day ago]; below seven days
    [N days ago] with N from 2 to 7; and from seven days on the date
    itself.  A count of 0 or 1 is never printed with a plural. *)
Theorem rel_date_phrases (toDateString : Z → string) (now date : Z) :
  (date ≤ now)%Z →
  let ms := (now - date)%Z in
  let phrase := RelDate._rel_date toDateString now date in
  let counted (unit half : Z) (lo hi : Z) (suffix : string) :=
    ∃ n : Z, (lo ≤ n ≤ hi)%Z ∧ (unit * n - half ≤ ms < unit * n + half)%Z ∧
             phrase = pretty n +:+ suffix in
  ((ms < 30000)%Z → phrase = "less than a minute ago") ∧
  ((30000 ≤ ms < 90000)%Z → phrase = "a minute ago") ∧
  ((90000 ≤ ms < 1770000)%Z → counted 60000%Z 30000%Z 2%Z 29%Z " minutes ago") ∧
  ((1770000 ≤ ms < 2700000)%Z → phrase = "half an hour ago") ∧
  ((2700000 ≤ ms < 5400000)%Z → phrase = "an hour ago") ∧
  ((5400000 ≤ ms < 84600000)%Z →
     counted 3600000%Z 1800000%Z 2%Z 23%Z " hours ago") ∧
  ((84600000 ≤ ms < 129600000)%Z → phrase = "a day ago") ∧
  ((129600000 ≤ ms < 604800000)%Z →
     counted 86400000%Z 43200000%Z 2%Z 7%Z " days ago") ∧
  ((604800000 ≤ ms)%Z → phrase = "on " +:+ toDateString date).
Proof.
  intros Hpast ms phrase counted. subst phrase counted.
  rewrite rel_date_milliseconds. fold ms. cbv zeta.
  assert (Hms : (0 ≤ ms)%Z) by (unfold ms; lia). clearbody ms.
  repeat split; intros H; repeat case_decide;
    try done; try (exfalso; Z.div_mod_to_equations; lia);
    (eexists; split; [|split; [|reflexivity]]; Z.div_mod_to_equations; lia).
Qed.

(** Forty minutes after the date. *)
Lemma rel_date_phrases_witness :
  RelDate._rel_date (λ _, "Mon Jan 05 2015") 2400000 0 = "half an hour ago".
Proof.
  assert (H : (0 ≤ 2400000)%Z) by lia.
  destruct (rel_date_phrases (λ _, "Mon Jan 05 2015") 2400000 0 H)
    as (_ & _ & _ & H4 & _).
  apply H4. simpl. lia.
Defined.

(** X12. A date in the future is never printed as a date, however far
    ahead it is: up to half a minute ahead it is [less than a minute
    ago], and beyond that the phrase counts a negative number of
    minutes, the nearest one (a tie going towards zero), also where
    that number is -1. *)
Theorem rel_date_of_future (toDateString : Z → string) (now date : Z) :
  (now < date)%Z →
  let ms := (now - date)%Z in
  let phrase := RelDate._rel_date toDateString now date in
  ((-30000 ≤ ms)%Z → phrase = "less than a minute ago") ∧
  ((ms < -30000)%Z →
     ∃ n : Z, (n ≤ -1)%Z ∧ (60000 * n - 30000 ≤ ms < 60000 * n + 30000)%Z ∧
              phrase = pretty n +:+ " minutes ago").
Proof.
  intros Hfuture ms phrase. subst phrase.
  rewrite rel_date_milliseconds. fold ms. cbv zeta.
  assert (Hms : (ms < 0)%Z) by (unfold ms; lia). clearbody ms.
  split; intros H; repeat case_decide;
    try done; try (exfalso; Z.div_mod_to_equations; lia).
  eexists. split; [|split; [|reflexivity]]; Z.div_mod_to_equations; lia.
Qed.

(** An hour ahead. *)
Lemma rel_date_of_future_witness :
  RelDate._rel_date (λ _, "Mon Jan 05 2015") 0 3600000 = "-60 minutes ago".
Proof.
  assert (H : (0 < 3600000)%Z) by lia.
  destruct (rel_date_of_future (λ _, "Mon Jan 05 2015") 0 3600000 H)
    as [_ H2].
  destruct H2 as (n & Hn & Hr & ->); [simpl; lia|].
  assert (n = -60)%Z as -> by (simpl in Hr; lia).
  reflexivity.
Defined.

(* ===================================================================== *)
(* Properties of saving with a delay                                     *)
(* ===================================================================== *)

Lemma filter_out_only {A : Type} (h : Z) (x : A) :
  filter (λ t : Z * A, t.1 ≠ h) [(h, x)] = [].
Proof.
  rewrite filter_cons. simpl.
  destruct (decide (h ≠ h)) as [H|H]; [done|reflexivity].
Qed.

Lemma autosave_step {callback : Type} (st st' : Autosave.state callback)
    (ev : Autosave.event callback) :
  timer_in_step st → Autosave.step st ev = Some st' →
  timer_in_step st' ∧
  match ev with
  | Autosave.Changed cb h =>
      waiting st' = Some cb ∧ Autosave.saved st' = Autosave.saved st
  | Autosave.Elapsed h =>
      ∃ cb, waiting st = Some cb ∧ waiting st' = None ∧
            Autosave.saved st' = Autosave.saved st ++ [cb]
  end.
Proof.
  destruct st as [t p s]. unfold timer_in_step, waiting. simpl.
  intros Hinv. destruct ev as [cb h|h]; simpl.
  - unfold Autosave._save_current_doc_with_delay. simpl.
    destruct p as [|[h0 cb0] [|? ?]]; [| |done].
    + destruct Hinv as [-> | ->]; simpl.
      * destruct (decide (0 < h ∧ h ∉ [])%Z) as [[Hh _]|]; [|done].
        intros [= <-]. simpl. done.
      * destruct (decide (0 < h ∧ h ∉ [])%Z) as [[Hh _]|]; [|done].
        intros [= <-]. simpl. done.
    + destruct Hinv as [-> Hh0].
      destruct (decide (Autosave.Num h0 ≠ Autosave.Num 0)) as [_|Hz];
        [|destruct Hz; intros [= ?]; lia].
      simpl. rewrite filter_out_only. simpl.
      destruct (decide (0 < h ∧ h ∉ [])%Z) as [[Hh _]|]; [|done].
      intros [= <-]. simpl. done.
  - unfold Autosave.elapse. simpl.
    destruct p as [|[h0 cb0] [|? ?]]; [done| |done].
    destruct Hinv as [-> Hh0]. simpl.
    destruct (decide (h0 = h)) as [->|Hne]; simpl; [|done].
    intros [= <-]. simpl.
    rewrite filter_out_only. simpl.
    split; [by right|]. by exists cb0.
Qed.

Lemma autosave_run {callback : Type} (evs : list (Autosave.event callback))
    (st st' : Autosave.state callback) :
  timer_in_step st → Autosave.run evs st = Some st' →
  timer_in_step st' ∧
  Autosave.saved st' = Autosave.saved st ++ saves_of (waiting st) evs.
Proof.
  revert st. induction evs as [|ev evs IH]; intros st Hinv; simpl.
  - intros [= <-]. by rewrite app_nil_r.
  - destruct (Autosave.step st ev) as [st1|] eqn:E; [|done]. simpl.
    intros Hrun.
    destruct (autosave_step _ _ _ Hinv E) as [Hinv1 Hev].
    destruct (IH st1 Hinv1 Hrun) as [Hinv' Hsaved].
    split; [done|]. rewrite Hsaved.
    destruct ev as [cb h|h].
    + destruct Hev as [-> ->]. done.
    + destruct Hev as (cb & -> & -> & ->). by rewrite <- app_assoc.
Qed.

(** X13. Whatever the changes and the moments the timers elapse, from
    the start of the application on: at most one timer is pending, the
    one whose handle [_save_timeout] holds; each timer that elapses
    saves with the callback of the latest change; and a change that is
    followed by another change before its timer elapsed leaves no
    trace: its callback is dropped, never to be called. *)
Theorem delayed_save_keeps_latest {callback : Type}
    (evs : list (Autosave.event callback)) (st : Autosave.state callback) :
  Autosave.run evs Autosave.initial = Some st →
  timer_in_step st ∧
  (length (Autosave.pending st) ≤ 1)%nat ∧
  Autosave.saved st = saves_of None evs ∧
  ∀ cb h cb' h' evs', (0 < h)%Z →
    Autosave.run (Autosave.Changed cb h :: Autosave.Changed cb' h' :: evs') st
    = Autosave.run (Autosave.Changed cb' h' :: evs') st.
Proof.
  intros Hrun.
  assert (Hinit : timer_in_step (Autosave.initial (callback := callback)))
    by (by left).
  destruct (autosave_run evs _ _ Hinit Hrun) as [Hinv Hsaved].
  split; [done|]. split; [|split; [done|]].
  - unfold timer_in_step in Hinv.
    destruct (Autosave.pending st) as [|[? ?] [|? ?]]; simpl; [lia|lia|done].
  - intros cb h cb' h' evs' Hh.
    destruct st as [t p s]. unfold timer_in_step in Hinv. simpl in Hinv.
    assert (E : ∀ t' cb1 h1,
              (t' = Autosave.Undefined ∨ t' = Autosave.Num 0) →
              Autosave._save_current_doc_with_delay cb1 h1
                {| Autosave._save_timeout := t'; Autosave.pending := [];
                   Autosave.saved := s |}
              = if decide (0 < h1)%Z then
                  Some {| Autosave._save_timeout := Autosave.Num h1;
                          Autosave.pending := [(h1, cb1)];
                          Autosave.saved := s |}
                else None).
    { intros t' cb1 h1 [-> | ->];
        unfold Autosave._save_current_doc_with_delay; simpl;
        destruct (decide (0 < h1)%Z);
        destruct (decide (0 < h1 ∧ h1 ∉ [])%Z) as [?|Hn]; try done;
        try tauto; destruct Hn; split; [done|apply not_elem_of_nil|done|apply not_elem_of_nil]. }
    assert (E1 : ∀ h0 cb0 cb1 h1, (0 < h0)%Z →
              Autosave._save_current_doc_with_delay cb1 h1
                {| Autosave._save_timeout := Autosave.Num h0;
                   Autosave.pending := [(h0, cb0)];
                   Autosave.saved := s |}
              = if decide (0 < h1)%Z then
                  Some {| Autosave._save_timeout := Autosave.Num h1;
                          Autosave.pending := [(h1, cb1)];
                          Autosave.saved := s |}
                else None).
    { intros h0 cb0 cb1 h1 Hh0.
      unfold Autosave._save_current_doc_with_delay; simpl.
      destruct (decide (Autosave.Num h0 ≠ Autosave.Num 0)) as [_|Hz];
        [|destruct Hz; intros [= ?]; lia].
      simpl. rewrite filter_out_only. simpl.
      destruct (decide (0 < h1)%Z);
        destruct (decide (0 < h1 ∧ h1 ∉ [])%Z) as [?|Hn]; try done; try tauto.
      destruct Hn. split; [done|apply not_elem_of_nil]. }
    simpl.
    destruct p as [|[h0 cb0] [|? ?]]; [| |done].
    + rewrite !E by done. rewrite decide_True by done. simpl.
      rewrite E1 by done. done.
    + destruct Hinv as [-> Hh0]. rewrite !E1 by done.
      rewrite decide_True by done. simpl. rewrite E1 by done. done.
Qed.

(** A change of a shader, then a change of the title, then the timer:
    one save, with the callback of the second change. *)
Lemma delayed_save_keeps_latest_witness :
  ∃ st, Autosave.run [Autosave.Changed "vertex" 1; Autosave.Changed "title" 2;
                      Autosave.Elapsed 2] Autosave.initial = Some st ∧
        Autosave.saved st = ["title"].
Proof.
  eexists. split; [reflexivity|].
  refine (proj1 (proj2 (proj2 (delayed_save_keeps_latest
    [Autosave.Changed "vertex" 1%Z; Autosave.Changed "title" 2%Z;
     Autosave.Elapsed 2%Z] _ eq_refl)))).
Defined.

(* ===================================================================== *)
(* More properties of the document store                                 *)
(* ===================================================================== *)

Lemma all_answers_failing (values ret : list IDB.document) (k : nat) :
  Store.all_answers values (Some k) ret = Store.CbDocs (ret ++ take k values).
Proof.
  revert ret k. induction values as [|v values IH]; intros ret [|k]; simpl.
  - by rewrite app_nil_r.
  - by rewrite app_nil_r.
  - by rewrite app_nil_r.
  - rewrite IH. by rewrite <- app_assoc.
Qed.

(** X14. When the cursor of [all] fails at its answer number [k]
    (counting from zero), the callback still runs, once, with the first
    [k] documents of the list an undisturbed run delivers (all of them
    when the list is shorter); the database is not changed. *)
Theorem all_interrupted_delivers_prefix (db : IDB.database) (k : nat) :
  ∃ docs,
    Store.callbacks (Store.all None db) = [Store.CbDocs docs] ∧
    Store.callbacks (Store.all (Some k) db) = [Store.CbDocs (take k docs)] ∧
    (length docs ≤ k →
       Store.callbacks (Store.all (Some k) db) = [Store.CbDocs docs])%nat ∧
    Store.thrown (Store.all (Some k) db) = false ∧
    Store.db_after (Store.all (Some k) db) = db.
Proof.
  exists (IDB.openCursor_prev "modification_time" db). simpl.
  rewrite all_answers_alone, all_answers_failing. simpl.
  do 2 (split; [done|]). split; [|done].
  intros Hk. by rewrite take_ge.
Qed.

(** X15. Deleting a document whose [id] is a valid key: when the
    request succeeds the callback gets the document that was passed,
    the record under that key is gone (whether or not there was one)
    and every other record and the key generator are as before; when
    the platform fails the request the callback gets [null] and the
    database is unchanged.  Either way the callback runs exactly once
    and nothing is thrown. *)
Theorem delete_by_id (doc : IDB.document) (v : IDB.jsvalue) (k : IDB.key)
    (db : IDB.database) :
  doc !! "id" = Some v → IDB.to_key v = Some k →
  let ok := Store.delete doc false db in
  let failed := Store.delete doc true db in
  Store.callbacks ok = [Store.CbDoc doc] ∧
  Store.thrown ok = false ∧
  Store.calls ok = [Store.Transaction Store.readwrite; Store.Delete v] ∧
  IDB.records (Store.db_after ok) !! k = None ∧
  (∀ k', k' ≠ k →
     IDB.records (Store.db_after ok) !! k' = IDB.records db !! k') ∧
  IDB.generator (Store.db_after ok) = IDB.generator db ∧
  Store.callbacks failed = [Store.CbNull] ∧
  Store.thrown failed = false ∧
  Store.db_after failed = db.
Proof.
  intros Hid Hk. unfold Store.delete, IDB.prop, IDB.has_prop, IDB.store_delete.
  rewrite Hid. simpl. rewrite Hk. simpl.
  repeat split.
  - apply lookup_delete_eq.
  - intros k' Hk'. by apply lookup_delete_ne.
Qed.

(** A stored document with the key 1 is deleted. *)
Lemma delete_by_id_witness :
  let doc : IDB.document := {[ "id" := IDB.JNum 1; "title" := IDB.JStr "a" ]} in
  let db := {| IDB.records := {[ IDB.KNum 1%Z := doc ]}; IDB.generator := 2 |} in
  Store.callbacks (Store.delete doc false db) = [Store.CbDoc doc] ∧
  IDB.records (Store.db_after (Store.delete doc false db)) !! IDB.KNum 1 = None.
Proof.
  intros doc db.
  assert (Hid : doc !! "id" = Some (IDB.JNum 1)) by (vm_compute; reflexivity).
  destruct (delete_by_id doc (IDB.JNum 1) (IDB.KNum 1) db Hid eq_refl)
    as (H1 & _ & _ & H2 & _).
  split; [exact H1|exact H2].
Defined.






